(** * payload_dumper: the operation interpreter and the BSDF2 patch reader

    A shallow embedding of [payload_dumper.py].  Python integers are
    unbounded, so block numbers and byte offsets (protobuf [uint64] and
    [uint32] fields) are [N], signed 64-bit values decoded from a patch are
    [Z], and a byte is its integer value in [Z].  File objects are a name
    and a position over a disk that maps names to contents.  Exceptions are
    values of [exn]; a computation that may raise returns [exn + A]. *)

From Stdlib Require Import ZArith NArith Lia Ascii.
From stdpp Require Import base numbers list strings gmap.

Local Open Scope string_scope.
Local Open Scope list_scope.
Local Open Scope nat_scope.

(** ** Bytes and Python exceptions *)

Abbreviation byte := Z (only parsing).
Abbreviation bytes := (list Z) (only parsing).

Fixpoint bytes_of_string (s : string) : bytes :=
  match s with
  | EmptyString => []
  | String a s' => Z.of_N (Ascii.N_of_ascii a) :: bytes_of_string s'
  end.

Inductive exn : Type :=
| ValueError (msg : string)
| TypeError (msg : string)
| IndexError (msg : string)
| AssertionError (msg : string)
| AttributeError (msg : string)
| FileNotFoundError (path : string)
| SystemExit (code : Z)
| PatchApplyError (msg : string)
| LibraryError (msg : string).

Definition result (A : Type) : Type := exn + A.

Definition ok {A} (a : A) : result A := inr a.
Definition raise {A} (e : exn) : result A := inl e.

Definition rbind {A B} (m : result A) (k : A → result B) : result B :=
  match m with
  | inl e => inl e
  | inr a => k a
  end.

Notation "'try' x <- m ; k" := (rbind m (fun x => k))
  (at level 10, x name, m at level 100, k at level 200).
Notation "'try' ' p <- m ; k" := (rbind m (fun x => match x with p => k end))
  (at level 10, p pattern, m at level 100, k at level 200).

(** [l[i:j]] for non-negative [i ≤ j]. *)
Definition slice (i j : nat) (l : bytes) : bytes := take (j - i) (drop i l).

(** [range(0, stop, step)] for a positive [step]. *)
Definition range_step (stop step : nat) : list nat :=
  (λ k, k * step) <$> seq 0 ((stop + step - 1) / step).

(** [[f(x) for x in l]] where [f] may raise: the first exception wins. *)
Fixpoint comprehension {A B} (f : A → result B) (l : list A) : result (list B) :=
  match l with
  | [] => ok []
  | x :: l' => try y <- f x; try ys <- comprehension f l'; ok (y :: ys)
  end.

(** ** Extents *)

Record Extent := mkExtent { start_block : N; num_blocks : N }.

(** Lines 65-73. *)
Fixpoint verify_contiguous_from (blocks : N) (exts : list Extent) : bool :=
  match exts with
  | [] => true
  | ext :: exts' =>
      if negb (start_block ext =? blocks)%N then false
      else verify_contiguous_from (blocks + num_blocks ext)%N exts'
  end.

Definition verify_contiguous (exts : list Extent) : bool :=
  verify_contiguous_from 0%N exts.

(** The contiguity check in the words of its specification: the extents,
    taken in sequence, tile the blocks from 0, so that extent [i] occupies
    the range that starts where the extents before it end. *)
Definition total_blocks (exts : list Extent) : N :=
  foldr (λ ext acc, (num_blocks ext + acc)%N) 0%N exts.

Definition covers_from_zero (exts : list Extent) : Prop :=
  ∀ i ext, exts !! i = Some ext → start_block ext = total_blocks (take i exts).

(** The blocks the extents name, in order of appearance. *)
Definition blocks_of (exts : list Extent) : list nat :=
  exts ≫= λ ext, seq (N.to_nat (start_block ext)) (N.to_nat (num_blocks ext)).

(** ** The BSDF2 patch reader *)

Definition BSDF2_MAGIC : bytes := bytes_of_string "BSDF2".

(** Modelled from the spec: [bsdiff4.format.MAGIC], a constant of the bsdiff4
    package that is not under src/; it is the magic of the classic bsdiff
    container. *)
Definition bsdiff4_format_MAGIC : bytes := bytes_of_string "BSDIFF40".

(** [io.BytesIO.read(n)] on the unread rest of the buffer: a negative size
    reads to the end, like a missing one. *)
Definition bytesio_read (n : option Z) (fi : bytes) : bytes * bytes :=
  match n with
  | None => (fi, [])
  | Some n =>
      if (n <? 0)%Z then (fi, [])
      else (take (Z.to_nat n) fi, drop (Z.to_nat n) fi)
  end.

(** [magic[i]] on a bytes object. *)
Definition bytes_index (b : bytes) (i : nat) : result byte :=
  match b !! i with
  | Some x => ok x
  | None => raise (IndexError "index out of range")
  end.

(** Lines 42-49: the three codec selectors chosen by the magic. *)
Definition patch_codecs (magic : bytes) : result (Z * Z * Z) :=
  if decide (magic = bsdiff4_format_MAGIC) then ok (1, 1, 1)%Z
  else if decide (take 5 magic = BSDF2_MAGIC) then
    try alg_control <- bytes_index magic 5;
    try alg_diff <- bytes_index magic 6;
    try alg_extra <- bytes_index magic 7;
    ok (alg_control, alg_diff, alg_extra)
  else raise (ValueError "Invalid bsdiff/BSDF2 magic signature").

(** ** Effects: a state and exception monad *)

Definition io (S A : Type) : Type := S → S * result A.

Definition ret {S A} (a : A) : io S A := λ s, (s, ok a).
Definition throw {S A} (e : exn) : io S A := λ s, (s, raise e).
Definition lift {S A} (r : result A) : io S A := λ s, (s, r).

Definition bind {S A B} (m : io S A) (k : A → io S B) : io S B :=
  λ s, match m s with
       | (s', inl e) => (s', inl e)
       | (s', inr a) => k a s'
       end.

Notation "'do' x <- m ; k" := (bind m (fun x => k))
  (at level 10, x name, m at level 100, k at level 200).
Notation "'do' ' p <- m ; k" := (bind m (fun x => match x with p => k end))
  (at level 10, p pattern, m at level 100, k at level 200).

(** [for x in l: acc = body(acc, x)]: an exception leaves the loop. *)
Fixpoint fold_each {S A B} (body : B → A → io S B) (acc : B) (l : list A) : io S B :=
  match l with
  | [] => ret acc
  | x :: l' => do acc' <- body acc x; fold_each body acc' l'
  end.

Definition for_each {S A} (body : A → io S unit) (l : list A) : io S unit :=
  fold_each (λ _ x, body x) tt l.

(** ** Files *)

(** Writing [d] at offset [pos] of a file (or of a [BytesIO]) whose contents
    are [c]: bytes under [d] are overwritten, a gap after the end is filled
    with zero bytes, and an empty write changes nothing. *)
Definition write_at (c : bytes) (pos : nat) (d : bytes) : bytes :=
  match d with
  | [] => c
  | _ => take pos c ++ replicate (pos - length c) 0%Z ++ d ++ drop (pos + length d) c
  end.

(** [read(n)] at offset [pos]: at most [n] bytes, fewer at the end. *)
Definition read_at (c : bytes) (pos n : nat) : bytes := take n (drop pos c).

(** An open file object: the name it was opened under and its position. *)
Record file := mkFile { f_name : string; f_pos : N }.

(** What [data_for_op] acts on: the files on disk and the two file objects
    it is passed ([old_file] is [None] outside differential mode). *)
Record state := mkState {
  disk : gmap string bytes;
  out_file : file;
  old_file : option file
}.

Definition contents (d : gmap string bytes) (name : string) : bytes :=
  default [] (d !! name).

Definition out_seek (off : N) : io state unit := λ s,
  (mkState (disk s) (mkFile (f_name (out_file s)) off) (old_file s), ok tt).

Definition out_write (data : bytes) : io state unit := λ s,
  let f := out_file s in
  let c := write_at (contents (disk s) (f_name f)) (N.to_nat (f_pos f)) data in
  (mkState (<[f_name f := c]> (disk s))
           (mkFile (f_name f) (f_pos f + N.of_nat (length data)))
           (old_file s), ok tt).

Definition old_seek (off : N) : io state unit := λ s,
  match old_file s with
  | None => (s, raise (AttributeError "'NoneType' object has no attribute 'seek'"))
  | Some f => (mkState (disk s) (out_file s) (Some (mkFile (f_name f) off)), ok tt)
  end.

Definition old_read (n : N) : io state bytes := λ s,
  match old_file s with
  | None => (s, raise (AttributeError "'NoneType' object has no attribute 'read'"))
  | Some f =>
      let data := read_at (contents (disk s) (f_name f)) (N.to_nat (f_pos f)) (N.to_nat n) in
      (mkState (disk s) (out_file s)
               (Some (mkFile (f_name f) (f_pos f + N.of_nat (length data)))), ok data)
  end.

(** ** The manifest *)

(** Modelled from the spec: the operation kinds of [update_metadata_pb2],
    which is not under src/.  [OtherType n] is any kind [n] that is none of
    the eight the interpreter compares against. *)
Inductive OpType : Type :=
| REPLACE | REPLACE_BZ | REPLACE_XZ | ZSTD | ZERO
| SOURCE_COPY | SOURCE_BSDIFF | BROTLI_BSDIFF
| OtherType (n : Z).

Record InstallOperation := mkOp {
  op_type : OpType;
  op_data_offset : N;
  op_data_length : N;
  data_sha256_hash : bytes;   (* [b''] when the field is not set *)
  src_extents : list Extent;
  dst_extents : list Extent
}.

Record PartitionUpdate := mkPart {
  partition_name : string;
  operations : list InstallOperation
}.

(** The imported packages ([bz2], [brotli], [lzma], [zstandard], [hashlib],
    [bsdiff4.core]) are not under src/: their functions are parameters, and
    each but the hash may raise. *)
Record Library := mkLibrary {
  bz2_decompress : bytes → result bytes;
  brotli_decompress : bytes → result bytes;
  lzma_decompress : bytes → result bytes;
  zstd_decompress : bytes → result bytes;
  sha256 : bytes → bytes;
  decode_int64 : bytes → result Z;
  bsdiff4_patch :
    bytes → Z → list (Z * Z * Z) → option bytes → option bytes → result bytes
}.

(** The module-level variables the functions read. *)
Record Globals := mkGlobals {
  payloadfile : bytes;
  data_offset : N;
  block_size : N;
  args_diff : bool;
  args_out : string;
  args_old : string;
  args_images : string
}.

Section Program.
Context (L : Library) (G : Globals).

(** Lines 31-37.  The result is [None] when no branch returns. *)
Definition bsdf2_decompress (alg : Z) (data : bytes) : result (option bytes) :=
  if (alg =? 0)%Z then ok (Some data)
  else if (alg =? 1)%Z then try d <- bz2_decompress L data; ok (Some d)
  else if (alg =? 2)%Z then try d <- brotli_decompress L data; ok (Some d)
  else ok None.

(** Lines 56-59: [len(bcontrol)] raises on [None]; each record is three
    calls of [decode_int64] on 8-byte slices, left to right. *)
Definition control_record (bcontrol : bytes) (i : nat) : result (Z * Z * Z) :=
  try x <- decode_int64 L (slice i (i + 8) bcontrol);
  try y <- decode_int64 L (slice (i + 8) (i + 16) bcontrol);
  try z <- decode_int64 L (slice (i + 16) (i + 24) bcontrol);
  ok (x, y, z).

Definition control_tuples (bcontrol : option bytes) : result (list (Z * Z * Z)) :=
  match bcontrol with
  | None => raise (TypeError "object of type 'NoneType' has no len()")
  | Some b => comprehension (control_record b) (range_step (length b) 24)
  end.

(** Lines 39-63.  [fi] is the unread rest of the stream. *)
Definition bsdf2_read_patch (fi : bytes)
  : result (Z * list (Z * Z * Z) * option bytes * option bytes) :=
  let '(magic, fi) := bytesio_read (Some 8%Z) fi in
  try '(alg_control, alg_diff, alg_extra) <- patch_codecs magic;
  let '(b, fi) := bytesio_read (Some 8%Z) fi in
  try len_control <- decode_int64 L b;
  let '(b, fi) := bytesio_read (Some 8%Z) fi in
  try len_diff <- decode_int64 L b;
  let '(b, fi) := bytesio_read (Some 8%Z) fi in
  try len_dst <- decode_int64 L b;
  let '(b, fi) := bytesio_read (Some len_control) fi in
  try bcontrol <- bsdf2_decompress alg_control b;
  try tcontrol <- control_tuples bcontrol;
  let '(b, fi) := bytesio_read (Some len_diff) fi in
  try bdiff <- bsdf2_decompress alg_diff b;
  let '(b, fi) := bytesio_read None fi in
  try bextra <- bsdf2_decompress alg_extra b;
  ok (len_dst, tcontrol, bdiff, bextra).

(** [args.payloadfile.seek(data_offset + op.data_offset)] followed by
    [read(op.data_length)].  As in the code for the offsets and sizes that
    [seek] and [read] take: from 2^63 on they raise [OverflowError], and a
    [read] of more than can be allocated raises [MemoryError], which is not
    told apart here. *)
Definition payload_data (op : InstallOperation) : bytes :=
  read_at (payloadfile G) (N.to_nat (data_offset G + op_data_offset op))
          (N.to_nat (op_data_length op)).

(** Lines 79-80: an empty hash is falsy and skips the check. *)
Definition hash_gate (op : InstallOperation) (data : bytes) : result unit :=
  if decide (data_sha256_hash op = []) then ok tt
  else if decide (sha256 L data = data_sha256_hash op) then ok tt
  else raise (AssertionError "Data hash mismatch").

(** [op.dst_extents[0]]. *)
Definition first_dst (op : InstallOperation) : result Extent :=
  match dst_extents op with
  | ext :: _ => ok ext
  | [] => raise (IndexError "list index out of range")
  end.

(** The body shared by the four replace kinds: seek to the first
    destination extent and write. *)
Definition write_first (op : InstallOperation) (data : bytes) : io state bytes :=
  do ext <- lift (first_dst op);
  do _ <- out_seek (start_block ext * block_size G);
  do _ <- out_write data;
  ret data.

(** Lines 133-134, the body of the loop of a ZERO operation. *)
Definition zero_extent (ext : Extent) : io state unit :=
  do _ <- out_seek (start_block ext * block_size G);
  out_write (replicate (N.to_nat (num_blocks ext * block_size G)) 0%Z).

(** The byte offsets an extent maps to:
    [[start_block*block_size, (start_block+num_blocks)*block_size)]. *)
Definition in_extent (ext : Extent) (k : N) : Prop :=
  (start_block ext * block_size G ≤ k
   < (start_block ext + num_blocks ext) * block_size G)%N.

(** Lines 75-139. *)
Definition data_for_op (op : InstallOperation) : io state bytes :=
  let data := payload_data op in
  do _ <- lift (hash_gate op data);
  match op_type op with
  | REPLACE_XZ => do data <- lift (lzma_decompress L data); write_first op data
  | ZSTD => do data <- lift (zstd_decompress L data); write_first op data
  | REPLACE_BZ => do data <- lift (bz2_decompress L data); write_first op data
  | REPLACE => write_first op data
  | SOURCE_COPY =>
      if negb (args_diff G) then throw (SystemExit (-2))
      else
        do ext <- lift (first_dst op);
        do _ <- out_seek (start_block ext * block_size G);
        fold_each (λ _ ext,
            do _ <- old_seek (start_block ext * block_size G);
            do data <- old_read (num_blocks ext * block_size G);
            do _ <- out_write data;
            ret data)
          data (src_extents op)
  | SOURCE_BSDIFF | BROTLI_BSDIFF =>
      if negb (args_diff G) then throw (SystemExit (-3))
      else
        do ext <- lift (first_dst op);
        do _ <- out_seek (start_block ext * block_size G);
        do old_data <- fold_each (λ tmp_buff ext,
            do _ <- old_seek (start_block ext * block_size G);
            do old_data <- old_read (num_blocks ext * block_size G);
            ret (tmp_buff ++ old_data))
          [] (src_extents op);
        do '(len_dst, tcontrol, bdiff, bextra) <- lift (bsdf2_read_patch data);
        do new_data <- lift (bsdiff4_patch L old_data len_dst tcontrol bdiff bextra);
        let tmp_buff := write_at old_data 0 new_data in
        do '(_, data) <- fold_each (λ '(n, _) ext,
            let data := read_at tmp_buff (N.to_nat (n * block_size G))
                                (N.to_nat (num_blocks ext * block_size G)) in
            do _ <- out_seek (start_block ext * block_size G);
            do _ <- out_write data;
            ret ((n + num_blocks ext)%N, data))
          (0%N, data) (dst_extents op);
        ret data
  | ZERO =>
      do _ <- for_each zero_extent (dst_extents op);
      ret data
  | OtherType _ => throw (SystemExit (-1))
  end.

(** ['%s/%s.img' % (directory, name)]. *)
Definition image_path (directory name : string) : string :=
  directory +:+ "/" +:+ name +:+ ".img".

(** [open(name, 'rb')].  The disk is keyed by the names of its files:
    here [name] is the name of the file itself.  [open_rb_via], below, opens
    a file by a path that the file system resolves. *)
Definition open_rb (name : string) : io (gmap string bytes) file := λ d,
  match d !! name with
  | Some _ => (d, ok (mkFile name 0))
  | None => (d, raise (FileNotFoundError name))
  end.

(** [open(name, 'wb')]: the file is created, or truncated when it exists.
    As for [open_rb], [name] is the name of the file itself. *)
Definition open_wb (name : string) : io (gmap string bytes) file := λ d,
  (<[name := []]> d, ok (mkFile name 0)).

(** Lines 156-160: the loop over a partition's operations. *)
Definition run_operations (ops : list InstallOperation) : io state unit :=
  for_each (λ op, do _ <- data_for_op op; ret tt) ops.

(** Lines 141-163.  Console output (the progress bar) is left out. *)
Definition dump_part (part : PartitionUpdate) : io (gmap string bytes) unit :=
  do out_file <- open_wb (image_path (args_out G) (partition_name part));
  do old_file <-
    (if args_diff G
     then do f <- open_rb (image_path (args_old G) (partition_name part)); ret (Some f)
     else ret None);
  λ d,
    let '(s, r) := run_operations (operations part) (mkState d out_file old_file) in
    (disk s, r).

(** [s.split(",")]. *)
Fixpoint split_comma (s : string) : list string :=
  match s with
  | EmptyString => [EmptyString]
  | String c s' =>
      if decide (c = ","%char) then EmptyString :: split_comma s'
      else match split_comma s' with
           | w :: ws => String c w :: ws
           | [] => [String c EmptyString]
           end
  end.

(** Lines 214-218, the body of the loop over the requested images; the
    message on stderr for an unknown image is left out. *)
Definition dump_image (partitions : list PartitionUpdate) (image : string)
  : io (gmap string bytes) unit :=
  match filter (λ part, partition_name part = image) partitions with
  | part :: _ => dump_part part
  | [] => ret tt
  end.

(** Lines 208-218: the partitions to dump, in order.  Nothing catches an
    exception of [dump_part]. *)
Definition dump_images (partitions : list PartitionUpdate)
  : io (gmap string bytes) unit :=
  if decide (args_images G = "") then for_each dump_part partitions
  else for_each (dump_image partitions) (split_comma (args_images G)).

End Program.

(** ** The patch applier *)

Module PatchApplier.
Local Open Scope Z_scope.

(** Modelled from the spec: taking the next [n] bytes of a stream, which
    fails when the stream is exhausted ([bsdiff4.core.patch] is not under
    src/).  A negative [n] is not a number of bytes to take and fails
    likewise. *)
Definition take_exact (n : Z) (stream : bytes) : result (bytes * bytes) :=
  if (n <? 0) || (Z.of_nat (length stream) <? n)
  then raise (PatchApplyError "stream exhausted")
  else ok (take (Z.to_nat n) stream, drop (Z.to_nat n) stream).

(** Modelled from the spec: reading [old_data[pos]], which fails outside
    the buffer ([bsdiff4.core.patch] is not under src/). *)
Definition old_byte (old_data : bytes) (pos : Z) : result byte :=
  if pos <? 0 then raise (PatchApplyError "stream exhausted")
  else match old_data !! Z.to_nat pos with
       | Some b => ok b
       | None => raise (PatchApplyError "stream exhausted")
       end.

(** Modelled from the spec: the "add" step of section 4.3 a, output byte =
    diff byte + old byte modulo 256 ([bsdiff4.core.patch] is not under
    src/). *)
Fixpoint add_step (old_data : bytes) (old_pos : Z) (diff_slice : bytes)
  : result bytes :=
  match diff_slice with
  | [] => ok []
  | d :: diff_slice' =>
      try o <- old_byte old_data old_pos;
      try out <- add_step old_data (old_pos + 1) diff_slice';
      ok ((d + o) mod 256 :: out)
  end.

(** Modelled from the spec: the walk over the control tuples of section
    4.3, steps a, b and c, stopping when the output has reached
    [new_data_length] ([bsdiff4.core.patch] is not under src/). *)
Fixpoint apply_loop (old_data : bytes) (new_data_length : Z)
    (control_stream : list (Z * Z * Z)) (old_pos : Z)
    (diff_stream extra_stream out : bytes) : result bytes :=
  match control_stream with
  | [] => ok out
  | (copy_len, extra_len, seek_len) :: control_stream' =>
      if new_data_length <=? Z.of_nat (length out) then ok out
      else
        try '(diff_slice, diff_stream') <- take_exact copy_len diff_stream;
        try added <- add_step old_data old_pos diff_slice;
        try '(extra_slice, extra_stream') <- take_exact extra_len extra_stream;
        apply_loop old_data new_data_length control_stream'
                   (old_pos + copy_len + seek_len) diff_stream' extra_stream'
                   (out ++ added ++ extra_slice)
  end.

(** Modelled from the spec: [apply] of section 4.3, the patch engine
    ([bsdiff4.core.patch] is not under src/). *)
Definition apply (old_data : bytes) (control_stream : list (Z * Z * Z))
    (diff_stream extra_stream : bytes) (new_data_length : Z) : result bytes :=
  try out <- apply_loop old_data new_data_length control_stream 0
                        diff_stream extra_stream [];
  if Z.of_nat (length out) =? new_data_length then ok out
  else raise (PatchApplyError "length mismatch").

End PatchApplier.

(** ** An instance of the library, for running the program on examples *)

Module Sample.
Local Open Scope Z_scope.

(** The 8-byte integers of a bsdiff patch: little-endian magnitude with
    the sign in the top bit of the last byte; any other length is
    refused. *)
Definition decode_int64 (b : bytes) : result Z :=
  match b with
  | [b0; b1; b2; b3; b4; b5; b6; b7] =>
      let x := fold_right (λ y acc, y + 256 * acc) 0
                          [b0; b1; b2; b3; b4; b5; b6; Z.land b7 127] in
      ok (if Z.testbit b7 7 then - x else x)
  | _ => raise (ValueError "8 bytes expected")
  end.

Definition not_a_stream (_ : bytes) : result bytes :=
  raise (LibraryError "invalid data stream").

(** A stand-in digest: 32 bytes that depend on the data. *)
Definition digest (data : bytes) : bytes :=
  Z.of_nat (length data) mod 256 :: replicate 31%nat 0.

Definition patch (old_data : bytes) (len_dst : Z) (tcontrol : list (Z * Z * Z))
    (bdiff bextra : option bytes) : result bytes :=
  match bdiff, bextra with
  | Some bdiff, Some bextra =>
      PatchApplier.apply old_data tcontrol bdiff bextra len_dst
  | _, _ => raise (TypeError "a bytes-like object is required, not 'NoneType'")
  end.

Definition library : Library :=
  mkLibrary not_a_stream not_a_stream not_a_stream not_a_stream
            digest decode_int64 patch.

Definition globals (diff : bool) (out old : string) (payload : bytes) : Globals :=
  mkGlobals payload 0 4 diff out old "".

End Sample.

(** ** Definitions used to state the properties *)

(** The control stream in the words of its specification: the 24-byte
    records of the stream, in order, and the three 8-byte fields of a
    record. *)
Definition records (b : bytes) : list bytes :=
  (λ k, take 24 (drop (k * 24) b)) <$> seq 0 (length b / 24).

Definition decode_record (dec : bytes → Z) (r : bytes) : Z * Z * Z :=
  (dec (take 8 r), dec (take 8 (drop 8 r)), dec (take 8 (drop 16 r))).

(** An action of the interpreter keeps the output file object on the same
    file and changes the disk at that file only. *)
Definition writes_out_only {A} (m : io state A) : Prop :=
  ∀ s s' r, m s = (s', r) →
    f_name (out_file s') = f_name (out_file s)
    ∧ ∀ name, name ≠ f_name (out_file s) → disk s' !! name = disk s !! name.

(** Inputs the examples run on. *)
Module Inputs.
Local Open Scope Z_scope.

Definition dec (s : bytes) : Z :=
  match Sample.decode_int64 s with inr z => z | inl _ => 0 end.

(** A BSDF2 patch with uncompressed streams and a control stream of 25
    bytes. *)
Definition misaligned_patch : bytes :=
  BSDF2_MAGIC ++ [0; 0; 0] ++ [25; 0; 0; 0; 0; 0; 0; 0] ++ replicate 16%nat 0
  ++ replicate 25%nat 1.

(** A BSDF2 patch whose diff and extra streams select the codecs 3 and 7. *)
Definition unknown_codec_patch : bytes :=
  BSDF2_MAGIC ++ [0; 3; 7] ++ replicate 24%nat 0 ++ [9; 9].

Definition unsupported_op : InstallOperation :=
  mkOp (OtherType 255) 0 0 [] [] [mkExtent 0 1].

Definition replace_op : InstallOperation :=
  mkOp REPLACE 0 4 [] [] [mkExtent 0 1].

Definition zero_op : InstallOperation :=
  mkOp ZERO 0 0 [] [] [mkExtent 1 1; mkExtent 3 2].

(** Two source blocks copied to two destination extents that are not
    adjacent. *)
Definition copy_op : InstallOperation :=
  mkOp SOURCE_COPY 0 0 [] [mkExtent 0 2] [mkExtent 0 1; mkExtent 2 1].

Definition old_image : bytes := [1; 2; 3; 4; 5; 6; 7; 8; 9; 10; 11; 12].
End Inputs.

(** ** The container header and the entry point *)

(** The value of a byte string read as a big-endian unsigned integer. *)
Definition be_uint (x : bytes) : Z :=
  fold_left (λ acc b, acc * 256 + b)%Z x 0%Z.

(** Lines 25-26: [struct.unpack('>I', x)] raises [struct.error] unless the
    buffer has exactly 4 bytes. *)
Definition u32 (x : bytes) : result Z :=
  if decide (length x = 4) then ok (be_uint x)
  else raise (LibraryError "unpack requires a buffer of 4 bytes").

(** Lines 28-29. *)
Definition u64 (x : bytes) : result Z :=
  if decide (length x = 8) then ok (be_uint x)
  else raise (LibraryError "unpack requires a buffer of 8 bytes").

(** The [n] bytes of [v] in big-endian order, to compare [u32] and [u64]
    with: what [struct.pack] writes for them. *)
Fixpoint be_bytes (n : nat) (v : Z) : bytes :=
  match n with
  | 0 => []
  | S n' => be_bytes n' (v / 256)%Z ++ [(v mod 256)%Z]
  end.

(** Lines 184-202: the header of the payload, read from its start.  The
    reads of a file object are those of [bytesio_read] for a size that is
    not negative; the result is the manifest, the metadata signature and
    [data_offset], the position after them.  A read gives the bytes that are
    there for every size: the sizes for which [read] of a file raises
    instead ([OverflowError] from 2^63 on, [MemoryError] for a size that
    cannot be allocated) are not told apart here, and a statement that a
    header is accepted is made for sizes within the length of the
    payload. *)
Definition read_header (payloadfile : bytes) : result (bytes * bytes * N) :=
  let '(magic, f) := bytesio_read (Some 4%Z) payloadfile in
  if decide (magic = bytes_of_string "CrAU") then
    let '(b, f) := bytesio_read (Some 8%Z) f in
    try file_format_version <- u64 b;
    if decide (file_format_version = 2%Z) then
      let '(b, f) := bytesio_read (Some 8%Z) f in
      try manifest_size <- u64 b;
      let '(size, f) :=
        if (1 <? file_format_version)%Z
        then let '(b, f) := bytesio_read (Some 4%Z) f in (u32 b, f)
        else (ok 0%Z, f) in
      try metadata_signature_size <- size;
      let '(manifest, f) := bytesio_read (Some manifest_size) f in
      let '(metadata_signature, f) := bytesio_read (Some metadata_signature_size) f in
      ok (manifest, metadata_signature, N.of_nat (length payloadfile - length f))
    else raise (AssertionError "")
  else raise (AssertionError "").

(** Lines 184-218, for a payload that is not a zip archive: the header,
    the manifest and the partitions.  [ParseFromString] stands for the
    protobuf decoder of [update_metadata_pb2], which is not under src/, and
    gives the block size and the partitions of a manifest; creating the
    output directory is left out. *)
Definition main (L : Library)
    (ParseFromString : bytes → result (N * list PartitionUpdate))
    (payloadfile : bytes) (diff : bool) (out old images : string)
  : io (gmap string bytes) unit := λ d,
  match
    (try '(manifest, _, data_offset) <- read_header payloadfile;
     try '(block_size, partitions) <- ParseFromString manifest;
     ok (data_offset, block_size, partitions))
  with
  | inl e => (d, inl e)
  | inr (data_offset, block_size, partitions) =>
      dump_images L (mkGlobals payloadfile data_offset block_size diff out old images)
                  partitions d
  end.

(** ** Further definitions used to state properties *)

(** [",".join(l)], to compare [split_comma] with. *)
Fixpoint join_comma (l : list string) : string :=
  match l with
  | [] => ""
  | [w] => w
  | w :: l' => w +:+ "," +:+ join_comma l'
  end.

Fixpoint has_comma (s : string) : bool :=
  match s with
  | EmptyString => false
  | String c s' => if decide (c = ","%char) then true else has_comma s'
  end.

(** An action of the interpreter removes no file. *)
Definition keeps_files {A} (m : io state A) : Prop :=
  ∀ s s' r name, m s = (s', r) →
    is_Some (disk s !! name) → is_Some (disk s' !! name).

(** The operation with its hash field cleared. *)
Definition without_hash (op : InstallOperation) : InstallOperation :=
  mkOp (op_type op) (op_data_offset op) (op_data_length op) []
       (src_extents op) (dst_extents op).

(** The operation with other destination extents. *)
Definition with_dst_extents (op : InstallOperation) (exts : list Extent)
  : InstallOperation :=
  mkOp (op_type op) (op_data_offset op) (op_data_length op)
       (data_sha256_hash op) (src_extents op) exts.

(** The bytes a replace operation writes: the payload bytes, decompressed
    for the compressed kinds; [None] for the other kinds. *)
Definition replace_data (L : Library) (ty : OpType) (data : bytes)
  : option (result bytes) :=
  match ty with
  | REPLACE => Some (ok data)
  | REPLACE_BZ => Some (bz2_decompress L data)
  | REPLACE_XZ => Some (lzma_decompress L data)
  | ZSTD => Some (zstd_decompress L data)
  | _ => None
  end.

(** The bytes of the source image that the source extents name, in order. *)
Definition source_bytes (G : Globals) (old_image : bytes) (exts : list Extent)
  : bytes :=
  exts ≫= λ ext, read_at old_image (N.to_nat (start_block ext * block_size G))
                          (N.to_nat (num_blocks ext * block_size G)).

(** ** Paths and files

    [open] takes a path, and the file system decides which file the path
    names: [images/boot.img] and [./images/boot.img] are two paths of one
    file.  Above, a file is opened under the name it has on the disk.  Here
    the step from the path to the file is explicit: [file_of path] is the
    name, on the disk, of the file that [path] names, so that two paths name
    the same file exactly when [file_of] sends them to the same name. *)

Section Paths.
Context (file_of : string → string) (L : Library) (G : Globals).

(** [open(path, 'rb')]: the file that [path] names is opened; the error of
    a missing file carries the path as it was given. *)
Definition open_rb_via (path : string) : io (gmap string bytes) file := λ d,
  match d !! file_of path with
  | Some _ => (d, ok (mkFile (file_of path) 0))
  | None => (d, raise (FileNotFoundError path))
  end.

(** [open(path, 'wb')]: the file that [path] names is created, or truncated
    when it exists. *)
Definition open_wb_via (path : string) : io (gmap string bytes) file := λ d,
  (<[file_of path := []]> d, ok (mkFile (file_of path) 0)).

(** Lines 141-163, with the two paths resolved by the file system. *)
Definition dump_part_via (part : PartitionUpdate)
  : io (gmap string bytes) unit :=
  do out_file <- open_wb_via (image_path (args_out G) (partition_name part));
  do old_file <-
    (if args_diff G
     then do f <- open_rb_via (image_path (args_old G) (partition_name part));
          ret (Some f)
     else ret None);
  λ d,
    let '(s, r) := run_operations L G (operations part)
                                  (mkState d out_file old_file) in
    (disk s, r).

End Paths.

(** More inputs for the examples. *)
Module MoreInputs.
Local Open Scope Z_scope.

(** A file system in which a leading [./] of a path names the directory
    the path is relative to: [./images/boot.img] is [images/boot.img]. *)
Fixpoint strip_dot (path : string) : string :=
  match path with
  | String "." (String "/" rest) => strip_dot rest
  | _ => path
  end.

(** A header with a manifest of 2 bytes and a signature of 1 byte,
    followed by 3 bytes of operation data. *)
Definition payload : bytes :=
  bytes_of_string "CrAU" ++ [0; 0; 0; 0; 0; 0; 0; 2] ++ [0; 0; 0; 0; 0; 0; 0; 2]
  ++ [0; 0; 0; 1] ++ [7; 8] ++ [9] ++ [1; 2; 3].

Definition no_manifest (_ : bytes) : result (N * list PartitionUpdate) :=
  ok (4%N, []).

(** An uncompressed BSDF2 patch: one control record, 2 bytes of diff, 1 of
    extra. *)
Definition plain_patch : bytes :=
  BSDF2_MAGIC ++ [0; 0; 0] ++ [24; 0; 0; 0; 0; 0; 0; 0]
  ++ [2; 0; 0; 0; 0; 0; 0; 0] ++ [3; 0; 0; 0; 0; 0; 0; 0]
  ++ ([2; 0; 0; 0; 0; 0; 0; 0] ++ [1; 0; 0; 0; 0; 0; 0; 0]
      ++ [0; 0; 0; 0; 0; 0; 0; 0])
  ++ [5; 6] ++ [7].
End MoreInputs.

(** * Properties *)

(** ** The monads *)

Lemma rbind_ok {A B} (m : result A) (k : A → result B) b :
  rbind m k = ok b → ∃ a, m = ok a ∧ k a = ok b.
Proof. destruct m as [e|a]; simpl; [done|eauto]. Qed.

Lemma bind_eq {S A B} (m : io S A) (k : A → io S B) s :
  bind m k s = match m s with
               | (s', inl e) => (s', inl e)
               | (s', inr a) => k a s'
               end.
Proof. reflexivity. Qed.

Lemma fold_each_app {S A B} (body : B → A → io S B) l1 l2 acc s :
  fold_each body acc (l1 ++ l2) s =
  bind (fold_each body acc l1) (λ acc', fold_each body acc' l2) s.
Proof.
  revert acc s. induction l1 as [|x l1 IH]; intros acc s; simpl; [done|].
  rewrite !bind_eq. destruct (body acc x s) as [s' [e|acc']]; [done|].
  rewrite IH. by rewrite bind_eq.
Qed.

(** An exception raised by the body ends the loop: the elements after it are
    not visited. *)
Lemma for_each_raise {S A} (body : A → io S unit) before x after s s1 s2 e :
  for_each body before s = (s1, ok tt) →
  body x s1 = (s2, raise e) →
  for_each body (before ++ x :: after) s = (s2, raise e).
Proof.
  unfold for_each. intros H1 H2. rewrite fold_each_app, bind_eq, H1.
  simpl. by rewrite bind_eq, H2.
Qed.

Lemma comprehension_raise_inv {A B} (f : A → result B) l e :
  comprehension f l = raise e → ∃ x, x ∈ l ∧ f x = raise e.
Proof.
  induction l as [|x l IH]; simpl; [done|].
  destruct (f x) as [e'|y] eqn:Hfx; simpl.
  - intros [= ->]. exists x. split; [left|done].
  - destruct (comprehension f l) as [e'|ys]; simpl; [|done].
    intros [= ->]. destruct (IH eq_refl) as (x' & Hin & Hx'). exists x'.
    split; [by right|done].
Qed.

Lemma comprehension_raises {A B} (f : A → result B) l x e :
  x ∈ l → f x = raise e → ∃ e', comprehension f l = raise e'.
Proof.
  induction l as [|y l IH]; intros Hin Hfx; [by apply elem_of_nil in Hin|].
  simpl. destruct (f y) as [e'|z] eqn:Hfy; simpl; [by eexists|].
  apply elem_of_cons in Hin as [->|Hin]; [rewrite Hfx in Hfy; discriminate|].
  destruct (IH Hin Hfx) as [e' ->]. simpl. by eexists.
Qed.

Lemma comprehension_fmap {A B C} (f : A → result B) (h : C → A) (g : C → B) l :
  (∀ x, x ∈ l → f (h x) = ok (g x)) → comprehension f (h <$> l) = ok (g <$> l).
Proof.
  induction l as [|x l IH]; intros H; [done|].
  rewrite !fmap_cons. cbn [comprehension]. rewrite H by left. cbn [rbind ok].
  rewrite IH; [done|]. intros y Hy. apply H. by right.
Qed.

(** ** Contiguity of extents *)

Lemma verify_contiguous_from_spec blocks exts :
  verify_contiguous_from blocks exts = true ↔
  ∀ i ext, exts !! i = Some ext →
           start_block ext = (blocks + total_blocks (take i exts))%N.
Proof.
  revert blocks. induction exts as [|e exts IH]; intros blocks; simpl.
  - split; [intros _ i ext Hi; by rewrite lookup_nil in Hi | done].
  - destruct (N.eqb_spec (start_block e) blocks) as [Heq|Hne]; simpl.
    + rewrite IH. split.
      * intros H [|i] ext Hi; simpl in *.
        -- injection Hi as <-. lia.
        -- rewrite (H i ext Hi). lia.
      * intros H i ext Hi. rewrite (H (S i) ext Hi). simpl. lia.
    + split; [done|]. intros H. specialize (H 0 e eq_refl). simpl in H. lia.
Qed.

(** Accepted extents name the blocks [0, 1, ..., total_blocks - 1], each
    once and in order. *)
Lemma blocks_of_from blocks exts :
  verify_contiguous_from blocks exts = true →
  blocks_of exts = seq (N.to_nat blocks) (N.to_nat (total_blocks exts)).
Proof.
  revert blocks. induction exts as [|e exts IH]; intros blocks; simpl; [done|].
  destruct (N.eqb_spec (start_block e) blocks) as [Heq|Hne]; simpl; [|done].
  intros H. unfold blocks_of in *. simpl. rewrite (IH _ H), Heq.
  rewrite N2Nat.inj_add, N2Nat.inj_add, seq_app. done.
Qed.

(** Conversely, extents without an empty one that name those blocks in
    order are accepted. *)
Lemma blocks_of_covers_from blocks exts :
  Forall (λ ext, (0 < num_blocks ext)%N) exts →
  blocks_of exts = seq (N.to_nat blocks) (N.to_nat (total_blocks exts)) →
  verify_contiguous_from blocks exts = true.
Proof.
  intros Hall. revert blocks.
  induction Hall as [|e exts Hpos Hall IH]; intros blocks; simpl; [done|].
  unfold blocks_of in *. simpl.
  rewrite N2Nat.inj_add, seq_app.
  destruct (N.to_nat (num_blocks e)) as [|n] eqn:Hn; [lia|]. simpl.
  intros Heq. injection Heq as Hs Hrest.
  assert (start_block e = blocks) as -> by lia.
  rewrite N.eqb_refl. simpl. apply IH.
  apply app_inj_1 in Hrest as [_ Hrest]; [|by rewrite !length_seq].
  rewrite Hrest. f_equal. lia.
Qed.

(** C7: the contiguity check accepts exactly the sequences of extents that
    tile the blocks from 0 in order of appearance, every extent starting
    where the ones before it end.  Accepted extents name the blocks 0, 1,
    ..., total_blocks - 1, each once and in order, and extents without an
    empty one that do so are accepted.  The check rejects [(0,2),(3,1)] and
    accepts [(0,2),(2,3)]. *)
Theorem verify_contiguous_iff_covers :
  (∀ exts, verify_contiguous exts = true ↔ covers_from_zero exts)
  ∧ (∀ exts, verify_contiguous exts = true →
       blocks_of exts = seq 0 (N.to_nat (total_blocks exts)))
  ∧ (∀ exts, Forall (λ ext, (0 < num_blocks ext)%N) exts →
       blocks_of exts = seq 0 (N.to_nat (total_blocks exts)) →
       verify_contiguous exts = true)
  ∧ verify_contiguous [mkExtent 0 2; mkExtent 3 1] = false
  ∧ verify_contiguous [mkExtent 0 2; mkExtent 2 3] = true.
Proof.
  split; [|split; [|split; [|split; reflexivity]]].
  - intros exts. unfold verify_contiguous, covers_from_zero.
    rewrite verify_contiguous_from_spec. by setoid_rewrite N.add_0_l.
  - intros exts. apply (blocks_of_from 0).
  - intros exts. apply (blocks_of_covers_from 0).
Qed.

Lemma verify_contiguous_iff_covers_witness :
  blocks_of [mkExtent 0 2; mkExtent 2 3] = [0; 1; 2; 3; 4].
Proof.
  apply (proj1 (proj2 verify_contiguous_iff_covers) [mkExtent 0 2; mkExtent 2 3]).
  reflexivity.
Defined.

(** ** The magic of a patch *)

Lemma bytes_of_8 (magic : bytes) :
  length magic = 8 → ∃ a b c d e f g h, magic = [a; b; c; d; e; f; g; h].
Proof.
  intros H. do 8 (destruct magic as [|? magic]; [done|]).
  destruct magic; [|done]. eauto 10.
Qed.

Lemma bsdf2_read_patch_magic L (magic rest : bytes) :
  length magic = 8 →
  ∀ e, patch_codecs magic = raise e → bsdf2_read_patch L (magic ++ rest) = raise e.
Proof.
  intros Hlen e He. unfold bsdf2_read_patch, bytesio_read. simpl.
  rewrite take_app_length', drop_app_length' by done. by rewrite He.
Qed.

Lemma patch_codecs_bsdf2 (magic : bytes) c d e :
  length magic = 8 → take 5 magic = BSDF2_MAGIC →
  magic !! 5 = Some c → magic !! 6 = Some d → magic !! 7 = Some e →
  patch_codecs magic = ok (c, d, e).
Proof.
  intros Hlen H5 Hc Hd He. unfold patch_codecs.
  destruct (decide _) as [Heq|_]; [by rewrite Heq in H5|].
  destruct (decide _) as [_|Hne]; [|done].
  unfold bytes_index. by rewrite Hc, Hd, He.
Qed.

Lemma patch_codecs_invalid (magic : bytes) :
  magic ≠ bsdiff4_format_MAGIC → take 5 magic ≠ BSDF2_MAGIC →
  patch_codecs magic = raise (ValueError "Invalid bsdiff/BSDF2 magic signature").
Proof.
  intros H1 H2. unfold patch_codecs.
  destruct (decide _); [done|]. by destruct (decide _).
Qed.

(** C3: for an 8-byte magic, the classic bsdiff magic selects codec 1
    (bzip2) for the three streams; a magic that starts with the BSDF2
    signature selects the codecs given by its bytes 5, 6 and 7; any other
    magic makes the reader raise the invalid-magic [ValueError]. *)
Theorem patch_codecs_of_magic (magic : bytes) :
  length magic = 8 →
  (magic = bsdiff4_format_MAGIC → patch_codecs magic = ok (1, 1, 1)%Z)
  ∧ (take 5 magic = BSDF2_MAGIC →
     ∃ c d e, magic !! 5 = Some c ∧ magic !! 6 = Some d ∧ magic !! 7 = Some e
              ∧ patch_codecs magic = ok (c, d, e))
  ∧ (magic ≠ bsdiff4_format_MAGIC → take 5 magic ≠ BSDF2_MAGIC →
     patch_codecs magic = raise (ValueError "Invalid bsdiff/BSDF2 magic signature")
     ∧ ∀ L rest, bsdf2_read_patch L (magic ++ rest)
                 = raise (ValueError "Invalid bsdiff/BSDF2 magic signature")).
Proof.
  intros Hlen. split; [|split].
  - intros ->. reflexivity.
  - intros H5. destruct (bytes_of_8 magic Hlen) as (a&b&c&d&e&f&g&h&->).
    exists f, g, h. repeat split. by apply patch_codecs_bsdf2.
  - intros H1 H2. pose proof (patch_codecs_invalid magic H1 H2) as H.
    split; [done|]. intros L rest. by apply bsdf2_read_patch_magic.
Qed.

Lemma patch_codecs_of_magic_witness :
  let magic := (BSDF2_MAGIC ++ [0; 1; 2])%Z in
  length magic = 8 ∧ take 5 magic = BSDF2_MAGIC
  ∧ patch_codecs magic = ok (0, 1, 2)%Z.
Proof.
  split; [reflexivity|]. split; [reflexivity|].
  destruct (patch_codecs_of_magic (BSDF2_MAGIC ++ [0; 1; 2])%Z eq_refl) as (_ & H & _).
  destruct (H eq_refl) as (c & d & e & Hc & Hd & He & ->).
  injection Hc as <-. injection Hd as <-. injection He as <-. reflexivity.
Defined.

(** ** Unknown codecs *)

(** C9: for an algorithm outside 0, 1 and 2 the decompression helper
    returns [None] and raises nothing; so for a BSDF2 magic whose codec
    bytes are 3 or more, the decompression of the stream they select
    returns [None] instead of failing. *)
Theorem bsdf2_decompress_unknown_alg (L : Library) :
  (∀ alg data, alg ≠ 0%Z → alg ≠ 1%Z → alg ≠ 2%Z →
               bsdf2_decompress L alg data = ok None)
  ∧ (∀ (magic : bytes) c d e,
       length magic = 8 → take 5 magic = BSDF2_MAGIC →
       magic !! 5 = Some c → magic !! 6 = Some d → magic !! 7 = Some e →
       patch_codecs magic = ok (c, d, e)
       ∧ (∀ data, (3 ≤ c)%Z → bsdf2_decompress L c data = ok None)
       ∧ (∀ data, (3 ≤ d)%Z → bsdf2_decompress L d data = ok None)
       ∧ (∀ data, (3 ≤ e)%Z → bsdf2_decompress L e data = ok None)).
Proof.
  assert (∀ alg data, alg ≠ 0%Z → alg ≠ 1%Z → alg ≠ 2%Z →
                      bsdf2_decompress L alg data = ok None) as Hnone.
  { intros alg data H0 H1 H2. unfold bsdf2_decompress.
    destruct (Z.eqb_spec alg 0); [done|].
    destruct (Z.eqb_spec alg 1); [done|].
    by destruct (Z.eqb_spec alg 2). }
  split; [done|].
  intros magic c d e Hlen H5 Hc Hd He.
  split; [by apply patch_codecs_bsdf2|].
  repeat split; intros data Hge; apply Hnone; lia.
Qed.

Lemma bsdf2_decompress_unknown_alg_witness :
  bsdf2_decompress Sample.library 3 [1; 2]%Z = ok None
  ∧ patch_codecs (BSDF2_MAGIC ++ [0; 3; 7])%Z = ok (0, 3, 7)%Z
  ∧ bsdf2_decompress Sample.library 7 [5]%Z = ok None.
Proof.
  destruct (bsdf2_decompress_unknown_alg Sample.library) as [H1 H2].
  split; [apply H1; lia|].
  destruct (H2 (BSDF2_MAGIC ++ [0; 3; 7])%Z 0%Z 3%Z 7%Z
               eq_refl eq_refl eq_refl eq_refl eq_refl) as (Hc & _ & _ & He).
  split; [exact Hc|]. apply He. lia.
Defined.

(** With the diff and extra codecs unknown the reader returns, and hands
    [None] for both streams to the patch function. *)
Example read_patch_unknown_codecs :
  bsdf2_read_patch Sample.library Inputs.unknown_codec_patch
  = ok (0%Z, [], None, None).
Proof. reflexivity. Qed.

(** ** The control stream *)

Lemma length_slice (i j : nat) (l : bytes) :
  length (slice i j l) = (j - i) `min` (length l - i).
Proof. unfold slice. by rewrite length_take, length_drop. Qed.

Lemma range_step_24 n :
  n `mod` 24 = 0 → range_step n 24 = (λ k, k * 24) <$> seq 0 (n / 24).
Proof.
  intros H. unfold range_step. do 2 f_equal.
  pose proof (Nat.div_mod_eq n 24).
  replace (n + 24 - 1) with (n / 24 * 24 + 23) by lia.
  rewrite Nat.div_add_l by done. done.
Qed.

Lemma take_plus {A} (a c : nat) (l : list A) :
  take (a + c) l = take a l ++ take c (drop a l).
Proof.
  revert l. induction a as [|a IH]; intros [|x l]; simpl; try done.
  - by rewrite take_nil.
  - by rewrite IH.
Qed.

Lemma records_concat_from (b : bytes) n : ∀ j,
  concat ((λ k, take 24 (drop (k * 24) b)) <$> seq j n)
  = take (n * 24) (drop (j * 24) b).
Proof.
  induction n as [|n IH]; intros j; [done|].
  cbn [seq fmap list_fmap concat]. rewrite IH.
  replace (S n * 24) with (24 + n * 24) by lia.
  rewrite take_plus, drop_drop. do 3 f_equal. lia.
Qed.

(** The records of an aligned stream are a partition of it. *)
Lemma records_concat (b : bytes) :
  length b `mod` 24 = 0 → concat (records b) = b.
Proof.
  intros H. unfold records. rewrite records_concat_from.
  change (0 * 24) with 0. rewrite drop_0. apply take_ge.
  pose proof (Nat.div_mod_eq (length b) 24). lia.
Qed.

Lemma records_length (b : bytes) : Forall (λ r, length r = 24) (records b).
Proof.
  unfold records. apply Forall_fmap, Forall_forall. intros k Hk.
  apply elem_of_seq in Hk. unfold compose. rewrite length_take, length_drop.
  pose proof (Nat.div_mod_eq (length b) 24). lia.
Qed.

Section ControlStream.
Context (L : Library).

Lemma control_record_raise_inv b i e :
  control_record L b i = raise e → ∃ s, decode_int64 L s = raise e.
Proof.
  unfold control_record.
  destruct (decode_int64 L (slice i (i + 8) b)) as [e1|x] eqn:H1; simpl.
  { intros [= ->]. eauto. }
  destruct (decode_int64 L (slice (i + 8) (i + 16) b)) as [e2|y] eqn:H2; simpl.
  { intros [= ->]. eauto. }
  destruct (decode_int64 L (slice (i + 16) (i + 24) b)) as [e3|z] eqn:H3; simpl.
  { intros [= ->]. eauto. }
  done.
Qed.

(** A record that runs over the end of the stream has a last field of
    fewer than 8 bytes. *)
Lemma control_record_short b i :
  (∀ s, length s ≠ 8 → ∃ e, decode_int64 L s = raise e) →
  length b < i + 24 → ∃ e, control_record L b i = raise e.
Proof.
  intros Hshort Hlen. unfold control_record.
  destruct (decode_int64 L (slice i (i + 8) b)) as [e1|x]; simpl; [eauto|].
  destruct (decode_int64 L (slice (i + 8) (i + 16) b)) as [e2|y]; simpl; [eauto|].
  destruct (Hshort (slice (i + 16) (i + 24) b)) as [e ->]; [|simpl; eauto].
  rewrite length_slice. lia.
Qed.

Lemma control_record_full (dec : bytes → Z) b i :
  (∀ s, length s = 8 → decode_int64 L s = ok (dec s)) →
  i + 24 ≤ length b →
  control_record L b i = ok (decode_record dec (take 24 (drop i b))).
Proof.
  intros Hdec Hlen. unfold control_record, decode_record, slice.
  replace (i + 8 - i) with 8 by lia.
  replace (i + 16 - (i + 8)) with 8 by lia.
  replace (i + 24 - (i + 16)) with 8 by lia.
  rewrite !Hdec by (rewrite length_take, length_drop; lia). simpl.
  rewrite take_take, !skipn_firstn_comm, !take_take, !drop_drop.
  reflexivity.
Qed.

Lemma control_tuples_misaligned b :
  (∀ s, length s ≠ 8 → ∃ e, decode_int64 L s = raise e) →
  length b `mod` 24 ≠ 0 →
  ∃ e s, decode_int64 L s = raise e ∧ control_tuples L (Some b) = raise e.
Proof.
  intros Hshort Hmod. pose proof (Nat.div_mod_eq (length b) 24) as Hdiv.
  pose proof (Nat.mod_upper_bound (length b) 24) as Hub.
  destruct (control_record_short b (length b / 24 * 24) Hshort) as [e He]; [lia|].
  destruct (comprehension_raises (control_record L b) (range_step (length b) 24)
              (length b / 24 * 24) e) as [e' He']; [|done|].
  - unfold range_step. apply list_elem_of_fmap. exists (length b / 24).
    split; [done|]. apply elem_of_seq.
    replace (length b + 24 - 1)
      with (length b / 24 * 24 + (length b `mod` 24 + 23)) by lia.
    rewrite Nat.div_add_l by done.
    assert (1 ≤ (length b `mod` 24 + 23) / 24); [|lia].
    apply Nat.div_le_lower_bound; lia.
  - simpl. apply comprehension_raise_inv in He' as Hx. destruct Hx as (x & _ & Hx).
    apply control_record_raise_inv in Hx as [s Hs]. eauto.
Qed.

Lemma control_tuples_aligned (dec : bytes → Z) b :
  (∀ s, length s = 8 → decode_int64 L s = ok (dec s)) →
  length b `mod` 24 = 0 →
  control_tuples L (Some b) = ok (decode_record dec <$> records b).
Proof.
  intros Hdec Hmod. simpl. rewrite range_step_24 by done.
  unfold records. rewrite <- list_fmap_compose.
  apply comprehension_fmap. intros k Hk. apply elem_of_seq in Hk.
  unfold compose. apply control_record_full; [done|].
  pose proof (Nat.div_mod_eq (length b) 24). lia.
Qed.

(** C5: let the patch have a valid magic and three decodable length
    fields, and let its control stream decompress to [bcontrol];
    [decode_int64] is the one of bsdiff4, which decodes 8 bytes (to
    [dec]) and refuses any other length.  When the length of [bcontrol]
    is not a multiple of 24 the reader fails: it raises what
    [decode_int64] raises on the short slice of the incomplete last
    record.  When it is a multiple of 24 the control tuples are the
    24-byte records of [bcontrol], in stream order, each decoded as three
    8-byte integers. *)
Theorem control_stream_records (dec : bytes → Z) (fi : bytes)
    (alg_control alg_diff alg_extra len_control len_diff len_dst : Z)
    (bcontrol : bytes) :
  (∀ s, length s ≠ 8 → ∃ e, decode_int64 L s = raise e) →
  (∀ s, length s = 8 → decode_int64 L s = ok (dec s)) →
  patch_codecs (take 8 fi) = ok (alg_control, alg_diff, alg_extra) →
  decode_int64 L (take 8 (drop 8 fi)) = ok len_control →
  decode_int64 L (take 8 (drop 16 fi)) = ok len_diff →
  decode_int64 L (take 8 (drop 24 fi)) = ok len_dst →
  bsdf2_decompress L alg_control (bytesio_read (Some len_control) (drop 32 fi)).1
    = ok (Some bcontrol) →
  (length bcontrol `mod` 24 ≠ 0 →
     ∃ e s, length s ≠ 8 ∧ decode_int64 L s = raise e
            ∧ bsdf2_read_patch L fi = raise e)
  ∧ (length bcontrol `mod` 24 = 0 →
       concat (records bcontrol) = bcontrol
       ∧ Forall (λ r, length r = 24) (records bcontrol)
       ∧ control_tuples L (Some bcontrol)
         = ok (decode_record dec <$> records bcontrol)
       ∧ ∀ len tcontrol bdiff bextra,
           bsdf2_read_patch L fi = ok (len, tcontrol, bdiff, bextra) →
           len = len_dst ∧ tcontrol = decode_record dec <$> records bcontrol).
Proof.
  intros Hshort Hdec Hmagic Hlc Hld Hldst Hbc.
  assert (bsdf2_read_patch L fi =
    try tcontrol <- control_tuples L (Some bcontrol);
    let '(b, fi') := bytesio_read (Some len_diff)
                       (bytesio_read (Some len_control) (drop 32 fi)).2 in
    try bdiff <- bsdf2_decompress L alg_diff b;
    let '(b, fi'') := bytesio_read None fi' in
    try bextra <- bsdf2_decompress L alg_extra b;
    ok (len_dst, tcontrol, bdiff, bextra)) as Hread.
  { assert (∀ x : bytes, bytesio_read (Some 8%Z) x = (take 8 x, drop 8 x)) as H8
      by reflexivity.
    unfold bsdf2_read_patch.
    rewrite H8, Hmagic. cbn [rbind ok].
    rewrite H8, Hlc. cbn [rbind ok].
    rewrite H8, drop_drop. change (8 + 8) with 16. rewrite Hld. cbn [rbind ok].
    rewrite H8, drop_drop. change (16 + 8) with 24. rewrite Hldst. cbn [rbind ok].
    rewrite drop_drop. change (24 + 8) with 32.
    destruct (bytesio_read (Some len_control) (drop 32 fi)) as [b fi'] eqn:Hr.
    simpl in Hbc. rewrite Hbc. reflexivity. }
  split.
  - intros Hmod.
    destruct (control_tuples_misaligned bcontrol Hshort Hmod) as (e & s & Hs & Ht).
    exists e, s. split; [|split; [done|]].
    + intros H8. rewrite Hdec in Hs by done. discriminate.
    + rewrite Hread, Ht. reflexivity.
  - intros Hmod. split; [by apply records_concat|]. split; [apply records_length|].
    pose proof (control_tuples_aligned dec bcontrol Hdec Hmod) as Ht.
    split; [done|]. intros len tcontrol bdiff bextra. rewrite Hread, Ht.
    cbn [rbind ok].
    destruct (bytesio_read (Some len_diff) _) as [b1 fi1].
    destruct (bsdf2_decompress L alg_diff b1) as [e1|bd]; [done|]. cbn [rbind].
    destruct (bytesio_read None fi1) as [b2 fi2].
    destruct (bsdf2_decompress L alg_extra b2) as [e2|be]; [done|]. cbn [rbind].
    by intros [= <- <- _ _].
Qed.
End ControlStream.

Lemma sample_decode_short (s : bytes) :
  length s ≠ 8 → ∃ e, Sample.decode_int64 s = raise e.
Proof.
  intros H. do 8 (destruct s as [|? s]; [by eexists|]).
  destruct s; [done|by eexists].
Qed.

Lemma sample_decode_full (s : bytes) :
  length s = 8 → Sample.decode_int64 s = ok (Inputs.dec s).
Proof.
  intros H. do 8 (destruct s as [|? s]; [done|]). destruct s; [|done].
  reflexivity.
Qed.

Lemma control_stream_records_witness :
  ∃ e s, length s ≠ 8 ∧ Sample.decode_int64 s = raise e
         ∧ bsdf2_read_patch Sample.library Inputs.misaligned_patch = raise e.
Proof.
  refine (proj1 (control_stream_records Sample.library Inputs.dec
            Inputs.misaligned_patch 0 0 0 25 0 0 (replicate 25 1%Z)
            sample_decode_short sample_decode_full
            eq_refl eq_refl eq_refl eq_refl eq_refl) _).
  vm_compute. discriminate.
Defined.

(** ** The patch applier *)

Lemma take_exact_ok n (stream slice_ rest : bytes) :
  PatchApplier.take_exact n stream = ok (slice_, rest) →
  (0 ≤ n)%Z ∧ slice_ = take (Z.to_nat n) stream ∧ rest = drop (Z.to_nat n) stream
  ∧ length slice_ = Z.to_nat n.
Proof.
  unfold PatchApplier.take_exact. destruct (Z.ltb_spec n 0); simpl; [done|].
  destruct (Z.ltb_spec (Z.of_nat (length stream)) n); simpl; [done|].
  intros [= <- <-]. repeat split; [done|]. rewrite length_take. lia.
Qed.

Lemma add_step_lookup (old_data diff_slice : bytes) : ∀ old_pos out,
  PatchApplier.add_step old_data old_pos diff_slice = ok out →
  length out = length diff_slice
  ∧ ∀ (i : nat) d, diff_slice !! i = Some d →
      ∃ o, PatchApplier.old_byte old_data (old_pos + Z.of_nat i) = ok o
           ∧ out !! i = Some ((d + o) mod 256)%Z.
Proof.
  induction diff_slice as [|d0 ds IH]; intros old_pos out; simpl.
  - intros [= <-]. split; [done|]. intros i d Hi. by rewrite lookup_nil in Hi.
  - intros H. apply rbind_ok in H as (o & Ho & H).
    apply rbind_ok in H as (out' & Hout' & H). injection H as <-.
    destruct (IH _ _ Hout') as [Hlen Hnth]. split; [simpl; lia|].
    intros [|i] d Hi; simpl in Hi.
    + injection Hi as <-. exists o. by rewrite Z.add_0_r.
    + destruct (Hnth i d Hi) as (o' & Ho' & Hlook). exists o'.
      split; [|done]. rewrite <- Ho'. f_equal. lia.
Qed.

(** The loop only appends to the output it has produced. *)
Lemma apply_loop_extends old_data new_data_length control_stream :
  ∀ old_pos diff_stream extra_stream out res,
    PatchApplier.apply_loop old_data new_data_length control_stream old_pos
                            diff_stream extra_stream out = ok res →
    ∃ rest, res = out ++ rest.
Proof.
  induction control_stream as [|[[c e] s] control IH];
    intros old_pos diff_stream extra_stream out res; simpl.
  - intros [= <-]. exists []. by rewrite app_nil_r.
  - destruct (_ <=? _)%Z.
    + intros [= <-]. exists []. by rewrite app_nil_r.
    + intros H. apply rbind_ok in H as ([ds diff'] & _ & H).
      apply rbind_ok in H as (added & _ & H).
      apply rbind_ok in H as ([es extra'] & _ & H).
      apply IH in H as [rest ->]. exists (added ++ es ++ rest).
      by rewrite <- !app_assoc.
Qed.

Lemma apply_loop_add_step old_data new_data_length copy_len extra_len seek_len
    control_stream old_pos (diff_stream extra_stream out res : bytes) :
  PatchApplier.apply_loop old_data new_data_length
      ((copy_len, extra_len, seek_len) :: control_stream)
      old_pos diff_stream extra_stream out = ok res →
  (Z.of_nat (length out) < new_data_length)%Z →
  ∀ i : nat, (Z.of_nat i < copy_len)%Z →
    ∃ d o, diff_stream !! i = Some d
           ∧ PatchApplier.old_byte old_data (old_pos + Z.of_nat i) = ok o
           ∧ res !! (length out + i) = Some ((d + o) mod 256)%Z.
Proof.
  intros H Hlt i Hi. simpl in H.
  destruct (Z.leb_spec new_data_length (Z.of_nat (length out))); [lia|].
  apply rbind_ok in H as ([ds diff'] & Htake & H).
  apply rbind_ok in H as (added & Hadd & H).
  apply rbind_ok in H as ([es extra'] & _ & H).
  apply take_exact_ok in Htake as (Hc & -> & -> & Hlen).
  apply add_step_lookup in Hadd as [Hlen' Hnth].
  apply apply_loop_extends in H as [rest ->].
  assert (i < length (take (Z.to_nat copy_len) diff_stream)) as Hi' by lia.
  apply lookup_lt_is_Some_2 in Hi' as [d Hd].
  destruct (Hnth i d Hd) as (o & Ho & Hlook).
  exists d, o. rewrite lookup_take_Some in Hd. split; [tauto|]. split; [done|].
  rewrite <- !app_assoc, lookup_app_r by lia.
  replace (length out + i - length out) with i by lia.
  apply lookup_lt_Some in Hlook as Hlt'. by rewrite lookup_app_l.
Qed.

Lemma old_byte_lookup (old_data : bytes) (i : nat) o :
  PatchApplier.old_byte old_data (0 + Z.of_nat i) = ok o → old_data !! i = Some o.
Proof.
  unfold PatchApplier.old_byte. destruct (Z.ltb_spec (0 + Z.of_nat i) 0); [done|].
  replace (Z.to_nat (0 + Z.of_nat i)) with i by lia.
  destruct (old_data !! i); [|done]. by intros [= ->].
Qed.

(** C1: at every control tuple the patch engine processes, in whatever
    state the walk has reached, the [copy_len] bytes it appends to the
    output are, byte for byte, the next diff byte plus the old byte under
    the old cursor, modulo 256; so the first [copy_len] bytes of a patched
    output are the sums of the first diff bytes and the first old bytes;
    and the patch of scenario C yields [11, 21, 31]. *)
Theorem add_step_output_bytes :
  (∀ old_data new_data_length copy_len extra_len seek_len control_stream
     old_pos (diff_stream extra_stream out res : bytes),
     PatchApplier.apply_loop old_data new_data_length
         ((copy_len, extra_len, seek_len) :: control_stream)
         old_pos diff_stream extra_stream out = ok res →
     (Z.of_nat (length out) < new_data_length)%Z →
     ∀ i : nat, (Z.of_nat i < copy_len)%Z →
       ∃ d o, diff_stream !! i = Some d
              ∧ PatchApplier.old_byte old_data (old_pos + Z.of_nat i) = ok o
              ∧ res !! (length out + i) = Some ((d + o) mod 256)%Z)
  ∧ (∀ old_data copy_len extra_len seek_len control_stream
       (diff_stream extra_stream res : bytes) new_data_length,
       PatchApplier.apply old_data ((copy_len, extra_len, seek_len) :: control_stream)
                          diff_stream extra_stream new_data_length = ok res →
       (0 < new_data_length)%Z →
       ∀ i : nat, (Z.of_nat i < copy_len)%Z →
         ∃ d o, diff_stream !! i = Some d ∧ old_data !! i = Some o
                ∧ res !! i = Some ((d + o) mod 256)%Z)
  ∧ PatchApplier.apply [10; 20; 30; 40; 50]%Z [(3, 0, 2)%Z] [1; 1; 1]%Z [] 3
    = ok [11; 21; 31]%Z.
Proof.
  split; [|split; [|reflexivity]].
  - intros. by eapply apply_loop_add_step.
  - intros old_data copy_len extra_len seek_len control_stream
           diff_stream extra_stream res new_data_length H Hpos i Hi.
    unfold PatchApplier.apply in H. apply rbind_ok in H as (out & Hloop & H).
    destruct (_ =? _)%Z; [|done]. injection H as ->.
    destruct (apply_loop_add_step _ _ _ _ _ _ _ _ _ _ _ Hloop Hpos i Hi)
      as (d & o & Hd & Ho & Hres).
    exists d, o. split; [done|]. split; [by apply old_byte_lookup|done].
Qed.

Lemma add_step_output_bytes_witness :
  ∃ d o, [1; 1; 1]%Z !! 2 = Some d ∧ [10; 20; 30; 40; 50]%Z !! 2 = Some o
         ∧ [11; 21; 31]%Z !! 2 = Some ((d + o) mod 256)%Z.
Proof.
  apply (proj1 (proj2 add_step_output_bytes)
           [10; 20; 30; 40; 50]%Z 3%Z 0%Z 2%Z [] [1; 1; 1]%Z [] [11; 21; 31]%Z 3%Z).
  - reflexivity.
  - lia.
  - lia.
Defined.

(** ** Writing into a file *)

Lemma write_at_cons (c : bytes) (pos : nat) x d :
  write_at c pos (x :: d) =
  take pos c ++ replicate (pos - length c) 0%Z ++ (x :: d)
  ++ drop (pos + length (x :: d)) c.
Proof. reflexivity. Qed.

Lemma lookup_write_at_inside (c d : bytes) (pos k : nat) :
  pos ≤ k < pos + length d → write_at c pos d !! k = d !! (k - pos).
Proof.
  intros Hk. destruct d as [|x d]; [simpl in Hk; lia|].
  rewrite write_at_cons.
  assert (length (take pos c ++ replicate (pos - length c) 0%Z) = pos) as Hlen.
  { rewrite length_app, length_take, length_replicate. lia. }
  rewrite app_assoc, lookup_app_r by lia. rewrite Hlen.
  by rewrite lookup_app_l by lia.
Qed.

Lemma lookup_write_at_before (c d : bytes) (pos k : nat) x :
  k < pos → c !! k = Some x → write_at c pos d !! k = Some x.
Proof.
  intros Hk Hc. destruct d as [|y d]; [done|]. rewrite write_at_cons.
  apply lookup_lt_Some in Hc as Hlt.
  rewrite lookup_app_l by (rewrite length_take; lia).
  by rewrite lookup_take_lt.
Qed.

Lemma lookup_write_at_after (c d : bytes) (pos k : nat) :
  pos + length d ≤ k → write_at c pos d !! k = c !! k.
Proof.
  intros Hk. destruct d as [|y d]; [done|]. rewrite write_at_cons.
  destruct (decide (k < length c)) as [Hlt|Hge].
  - assert (length (take pos c ++ replicate (pos - length c) 0%Z ++ y :: d)
            = pos + length (y :: d)) as Hlen.
    { rewrite !length_app, length_take, length_replicate. simpl in *. lia. }
    rewrite !app_assoc, lookup_app_r; rewrite <- ?app_assoc, Hlen; [|lia].
    rewrite lookup_drop. f_equal. lia.
  - rewrite (lookup_ge_None_2 c) by lia. apply lookup_ge_None_2.
    rewrite !length_app, length_take, length_replicate, length_drop.
    simpl in *. lia.
Qed.

(** Writing zeros leaves a zero wherever there was one and puts one
    wherever it writes. *)
Lemma write_zeros_zero (c : bytes) (pos n k : nat) :
  c !! k = Some 0%Z ∨ pos ≤ k < pos + n →
  write_at c pos (replicate n 0%Z) !! k = Some 0%Z.
Proof.
  intros H.
  destruct (decide (pos ≤ k < pos + n)) as [Hin|Hout].
  - rewrite lookup_write_at_inside by (rewrite length_replicate; lia).
    apply lookup_replicate_2. lia.
  - destruct H as [Hc|]; [|done].
    destruct (decide (k < pos)).
    + by apply lookup_write_at_before.
    + rewrite lookup_write_at_after by (rewrite length_replicate; lia). done.
Qed.

(** ** The operation interpreter *)

Section Interpreter.
Context (L : Library) (G : Globals).

(** C2: when the hash field of an operation is set and differs from the
    SHA-256 of the payload bytes read for it, [data_for_op] raises the
    hash-mismatch [AssertionError] and leaves everything as it was: the
    disk, and so the output image, and both file objects. *)
Theorem hash_gate_mismatch (op : InstallOperation) (s : state) :
  data_sha256_hash op ≠ [] →
  sha256 L (payload_data G op) ≠ data_sha256_hash op →
  data_for_op L G op s = (s, raise (AssertionError "Data hash mismatch")).
Proof.
  intros Hset Hne. unfold data_for_op. rewrite bind_eq. unfold lift, hash_gate.
  destruct (decide _); [done|]. by destruct (decide _).
Qed.

Lemma data_for_op_unsupported op n s :
  op_type op = OtherType n →
  hash_gate L op (payload_data G op) = ok tt →
  data_for_op L G op s = (s, raise (SystemExit (-1))).
Proof.
  intros Hty Hgate. unfold data_for_op. rewrite bind_eq. unfold lift.
  by rewrite Hgate, Hty.
Qed.

(** C6, as the code has it: an operation of an unrecognised kind that
    passes the hash gate writes nothing and exits the process with status
    -1; the exit ends the loop over the operations of the partition, and
    it ends the loop over the partitions (over all of them, or over the
    requested images), so that the partitions after this one are not
    attempted. *)
Theorem unsupported_operation_exits (op : InstallOperation) (n : Z) :
  op_type op = OtherType n →
  hash_gate L op (payload_data G op) = ok tt →
  (∀ s, data_for_op L G op s = (s, raise (SystemExit (-1))))
  ∧ (∀ before after s s1,
       run_operations L G before s = (s1, ok tt) →
       run_operations L G (before ++ op :: after) s
       = (s1, raise (SystemExit (-1))))
  ∧ (∀ parts_before part parts_after d d1 d2 e,
       args_images G = "" →
       for_each (dump_part L G) parts_before d = (d1, ok tt) →
       dump_part L G part d1 = (d2, raise e) →
       dump_images L G (parts_before ++ part :: parts_after) d = (d2, raise e))
  ∧ (∀ partitions images_before image images_after d d1 d2 e,
       args_images G ≠ "" →
       split_comma (args_images G) = images_before ++ image :: images_after →
       for_each (dump_image L G partitions) images_before d = (d1, ok tt) →
       dump_image L G partitions image d1 = (d2, raise e) →
       dump_images L G partitions d = (d2, raise e)).
Proof.
  intros Hty Hgate. split; [|split; [|split]].
  - intros s. by eapply data_for_op_unsupported.
  - intros before after s s1 H. unfold run_operations.
    eapply for_each_raise; [exact H|]. rewrite bind_eq.
    by erewrite data_for_op_unsupported.
  - intros parts_before part parts_after d d1 d2 e Himg H1 H2.
    unfold dump_images. rewrite decide_True by done.
    by eapply for_each_raise.
  - intros partitions images_before image images_after d d1 d2 e Himg Hsplit H1 H2.
    unfold dump_images. rewrite decide_False by done. rewrite Hsplit.
    by eapply for_each_raise.
Qed.

(** *** ZERO *)

Lemma zero_extents_loop (exts : list Extent) : ∀ s,
  ∃ s', for_each (zero_extent G) exts s = (s', ok tt)
    ∧ f_name (out_file s') = f_name (out_file s)
    ∧ (∀ k, contents (disk s) (f_name (out_file s)) !! k = Some 0%Z →
            contents (disk s') (f_name (out_file s)) !! k = Some 0%Z)
    ∧ (∀ ext k, ext ∈ exts → in_extent G ext k →
            contents (disk s') (f_name (out_file s)) !! N.to_nat k = Some 0%Z).
Proof.
  induction exts as [|ext exts IH]; intros s.
  - exists s. repeat split; [done|]. intros ext k Hin. by apply elem_of_nil in Hin.
  - pose (zeros := replicate (N.to_nat (num_blocks ext * block_size G)) 0%Z).
    pose (s1 := mkState
      (<[f_name (out_file s) :=
           write_at (contents (disk s) (f_name (out_file s)))
                    (N.to_nat (start_block ext * block_size G)) zeros]> (disk s))
      (mkFile (f_name (out_file s))
              (start_block ext * block_size G + N.of_nat (length zeros)))
      (old_file s)).
    assert (zero_extent G ext s = (s1, ok tt)) as Hstep by reflexivity.
    destruct (IH s1) as (s' & Hrun & Hname & Hkeep & Hzero).
    simpl in Hname, Hkeep, Hzero.
    assert (∀ k, contents (disk s) (f_name (out_file s)) !! k = Some 0%Z
                 ∨ in_extent G ext (N.of_nat k) →
                 contents (disk s1) (f_name (out_file s)) !! k = Some 0%Z) as Hs1.
    { intros k Hk. unfold contents at 1. simpl. rewrite lookup_insert_eq. simpl.
      apply write_zeros_zero. destruct Hk as [Hk|Hk]; [by left|right].
      unfold in_extent in Hk. lia. }
    exists s'. split; [|split; [|split]].
    + unfold for_each in *. simpl. rewrite bind_eq, Hstep. exact Hrun.
    + done.
    + intros k Hk. apply Hkeep, Hs1. by left.
    + intros e k Hin Hk. apply elem_of_cons in Hin as [->|Hin].
      * apply Hkeep, Hs1. right. by rewrite N2Nat.id.
      * by apply (Hzero e k).
Qed.

(** C8: a ZERO operation that passes the hash gate completes, and then
    every byte of the output image in the byte range of every destination
    extent is zero. *)
Theorem zero_operation_zeroes (op : InstallOperation) (s : state) :
  op_type op = ZERO →
  hash_gate L op (payload_data G op) = ok tt →
  ∃ s', data_for_op L G op s = (s', ok (payload_data G op))
    ∧ ∀ ext k, ext ∈ dst_extents op → in_extent G ext k →
        contents (disk s') (f_name (out_file s)) !! N.to_nat k = Some 0%Z.
Proof.
  intros Hty Hgate.
  destruct (zero_extents_loop (dst_extents op) s) as (s' & Hrun & _ & _ & Hzero).
  exists s'. split; [|intros ext k; apply Hzero].
  unfold data_for_op. rewrite bind_eq. unfold lift. rewrite Hgate, Hty.
  rewrite bind_eq. by rewrite Hrun.
Qed.

(** *** What the interpreter leaves alone *)

Lemma frame_ret {A} (a : A) : writes_out_only (ret a).
Proof. intros s s' r [= <- <-]. done. Qed.

Lemma frame_throw {A} e : writes_out_only (@throw state A e).
Proof. intros s s' r [= <- <-]. done. Qed.

Lemma frame_lift {A} (x : result A) : writes_out_only (lift x).
Proof. intros s s' r [= <- <-]. done. Qed.

Lemma frame_bind {A B} (m : io state A) (k : A → io state B) :
  writes_out_only m → (∀ a, writes_out_only (k a)) → writes_out_only (bind m k).
Proof.
  intros Hm Hk s s' r. rewrite bind_eq.
  destruct (m s) as [s1 [e|a]] eqn:Hms.
  - intros [= <- <-]. by apply (Hm _ _ _ Hms).
  - intros Hka. destruct (Hm _ _ _ Hms) as [Hn1 Hd1].
    destruct (Hk a _ _ _ Hka) as [Hn2 Hd2]. split; [congruence|].
    intros name Hne. rewrite Hd2 by congruence. by apply Hd1.
Qed.

Lemma frame_fold_each {A B} (body : B → A → io state B) l :
  (∀ acc x, writes_out_only (body acc x)) →
  ∀ acc, writes_out_only (fold_each body acc l).
Proof.
  intros Hbody. induction l as [|x l IH]; intros acc; simpl.
  - apply frame_ret.
  - apply frame_bind; [apply Hbody|apply IH].
Qed.

Lemma frame_out_seek off : writes_out_only (out_seek off).
Proof. intros s s' r [= <- <-]. done. Qed.

Lemma frame_out_write data : writes_out_only (out_write data).
Proof.
  intros s s' r [= <- <-]. simpl. split; [done|].
  intros name Hne. by rewrite lookup_insert_ne.
Qed.

(** The source file object is only ever sought and read. *)
Lemma frame_old_seek off : writes_out_only (old_seek off).
Proof.
  intros s s' r. unfold old_seek. destruct (old_file s); intros [= <- <-]; done.
Qed.

Lemma frame_old_read n : writes_out_only (old_read n).
Proof.
  intros s s' r. unfold old_read. destruct (old_file s); intros [= <- <-]; done.
Qed.

Ltac frame :=
  repeat first
    [ apply frame_ret | apply frame_throw | apply frame_lift
    | apply frame_out_seek | apply frame_out_write
    | apply frame_old_seek | apply frame_old_read
    | apply frame_fold_each; intros
    | apply frame_bind; [|intros]
    | match goal with
      | |- writes_out_only (match ?x with _ => _ end) => destruct x
      | |- writes_out_only ((match ?x with _ => _ end) _) => destruct x
      end ].

Lemma frame_data_for_op op : writes_out_only (data_for_op L G op).
Proof. unfold data_for_op, write_first, for_each, zero_extent. frame. Qed.

Lemma frame_run_operations ops : writes_out_only (run_operations L G ops).
Proof.
  unfold run_operations, for_each.
  apply frame_fold_each. intros _ op.
  apply frame_bind; [apply frame_data_for_op|intros; apply frame_ret].
Qed.

(** Dumping a partition changes no file but the partition's output
    image. *)
Lemma dump_part_other_files part (d d' : gmap string bytes) r name :
  name ≠ image_path (args_out G) (partition_name part) →
  dump_part L G part d = (d', r) → d' !! name = d !! name.
Proof.
  intros Hne. unfold dump_part, bind, open_wb, open_rb, ret.
  set (out := image_path (args_out G) (partition_name part)) in *.
  assert (∀ old s1 r1,
    run_operations L G (operations part)
                   (mkState (<[out:=[]]> d) (mkFile out 0) old) = (s1, r1) →
    disk s1 !! name = d !! name) as Hrun.
  { intros old s1 r1 H. destruct (frame_run_operations _ _ _ _ H) as [_ Hd].
    simpl in Hd. rewrite Hd by done. by rewrite lookup_insert_ne. }
  destruct (args_diff G).
  - destruct (<[out:=[]]> d !! image_path (args_old G) (partition_name part)); simpl.
    + destruct (run_operations _ _ _ _) as [s1 r1] eqn:H.
      intros [= <- <-]. by eapply Hrun.
    + intros [= <- <-]. by rewrite lookup_insert_ne.
  - simpl. destruct (run_operations _ _ _ _) as [s1 r1] eqn:H.
    intros [= <- <-]. by eapply Hrun.
Qed.

(** Dumping a partition changes no file but the one that the path of the
    partition's output image names. *)
Lemma dump_part_via_other_files (file_of : string → string) part
    (d d' : gmap string bytes) r name :
  name ≠ file_of (image_path (args_out G) (partition_name part)) →
  dump_part_via file_of L G part d = (d', r) → d' !! name = d !! name.
Proof.
  intros Hne. unfold dump_part_via, bind, open_wb_via, open_rb_via, ret.
  set (out := file_of (image_path (args_out G) (partition_name part))) in *.
  assert (∀ old s1 r1,
    run_operations L G (operations part)
                   (mkState (<[out:=[]]> d) (mkFile out 0) old) = (s1, r1) →
    disk s1 !! name = d !! name) as Hrun.
  { intros old s1 r1 H. destruct (frame_run_operations _ _ _ _ H) as [_ Hd].
    simpl in Hd. rewrite Hd by done. by rewrite lookup_insert_ne. }
  destruct (args_diff G).
  - destruct (<[out:=[]]> d
                !! file_of (image_path (args_old G) (partition_name part))); simpl.
    + destruct (run_operations _ _ _ _) as [s1 r1] eqn:H.
      intros [= <- <-]. by eapply Hrun.
    + intros [= <- <-]. by rewrite lookup_insert_ne.
  - simpl. destruct (run_operations _ _ _ _) as [s1 r1] eqn:H.
    intros [= <- <-]. by eapply Hrun.
Qed.

(** C10, as the code has it: an operation changes no file but the one
    the output file object is on, so it leaves the source image alone when
    that is another file; and when the path of the source image of a
    partition and the path of its output image name different files,
    dumping the partition, whatever its operations and whether or not one
    of them fails, leaves the source image as it was.  The proviso is on
    the files, not on the spelling of the paths: [file_of] is any way the
    file system resolves paths to files. *)
Theorem source_image_unchanged :
  (∀ op s s' r f,
     data_for_op L G op s = (s', r) →
     old_file s = Some f → f_name f ≠ f_name (out_file s) →
     disk s' !! f_name f = disk s !! f_name f)
  ∧ (∀ (file_of : string → string) part (d d' : gmap string bytes)
       (r : result unit),
       file_of (image_path (args_old G) (partition_name part))
         ≠ file_of (image_path (args_out G) (partition_name part)) →
       dump_part_via file_of L G part d = (d', r) →
       d' !! file_of (image_path (args_old G) (partition_name part))
       = d !! file_of (image_path (args_old G) (partition_name part))).
Proof.
  split.
  - intros op s s' r f Hrun _ Hne.
    by apply (frame_data_for_op op s s' r Hrun).
  - intros file_of part d d' r. apply dump_part_via_other_files.
Qed.

End Interpreter.

Lemma hash_gate_mismatch_witness :
  let G := Sample.globals false "output" "old" [1; 2; 3; 4]%Z in
  let op := mkOp REPLACE 0 4 [7]%Z [] [mkExtent 0 1] in
  let s := mkState ∅ (mkFile "output/system.img" 0) None in
  data_for_op Sample.library G op s
  = (s, raise (AssertionError "Data hash mismatch")).
Proof.
  intros G op s. apply hash_gate_mismatch; [discriminate|].
  vm_compute. discriminate.
Defined.

Lemma unsupported_operation_exits_witness :
  let G := Sample.globals false "output" "old" [1; 2; 3; 4]%Z in
  let s := mkState ∅ (mkFile "output/boot.img" 0) None in
  data_for_op Sample.library G Inputs.unsupported_op s
  = (s, raise (SystemExit (-1))).
Proof.
  intros G s.
  apply (unsupported_operation_exits Sample.library G Inputs.unsupported_op 255
           eq_refl eq_refl).
Defined.

(** C6, as the claim has it, fails: with an unsupported operation in the
    first of two partitions the run ends with exit status -1 and the second
    partition is not attempted, its image is not even created. *)
Lemma unsupported_operation_aborts_run :
  let G := Sample.globals false "output" "old" [1; 2; 3; 4]%Z in
  let parts := [mkPart "boot" [Inputs.unsupported_op];
                mkPart "system" [Inputs.replace_op]] in
  let r := dump_images Sample.library G parts ∅ in
  r.2 = raise (SystemExit (-1))
  ∧ r.1 !! "output/boot.img" = Some []
  ∧ ¬ is_Some (r.1 !! "output/system.img").
Proof.
  intros G parts r. split; [reflexivity|]. split; [reflexivity|].
  vm_compute. intros [x Hx]. discriminate.
Defined.

Lemma zero_operation_zeroes_witness :
  let G := Sample.globals false "output" "old" [] in
  let s := mkState {[ "output/boot.img" := [5; 5; 5]%Z ]}
                   (mkFile "output/boot.img" 0) None in
  ∃ s', data_for_op Sample.library G Inputs.zero_op s = (s', ok [])
    ∧ ∀ ext k, ext ∈ dst_extents Inputs.zero_op → in_extent G ext k →
        contents (disk s') "output/boot.img" !! N.to_nat k = Some 0%Z.
Proof.
  intros G s.
  apply (zero_operation_zeroes Sample.library G Inputs.zero_op s eq_refl eq_refl).
Defined.

Lemma source_image_unchanged_witness :
  let G := Sample.globals true "output" "./old" [] in
  let d : gmap string bytes := {[ "old/boot.img" := Inputs.old_image ]} in
  let r := dump_part_via MoreInputs.strip_dot Sample.library G
                         (mkPart "boot" [Inputs.copy_op]) d in
  r.1 !! "old/boot.img" = Some Inputs.old_image.
Proof.
  intros G d r.
  refine (eq_trans (proj2 (source_image_unchanged Sample.library G)
                      MoreInputs.strip_dot
                      (mkPart "boot" [Inputs.copy_op]) d r.1 r.2 _ _) _).
  - vm_compute. discriminate.
  - exact (surjective_pairing r).
  - reflexivity.
Defined.

(** C10, as the claim has it, fails: when the old and the output directory
    are the same, the source image is the file the output image is written
    to; opening the output image truncates it and the operations overwrite
    it. *)
Lemma source_image_truncated :
  let G := Sample.globals true "images" "images" [1; 2; 3; 4]%Z in
  let d : gmap string bytes := {[ "images/boot.img" := [9; 9; 9]%Z ]} in
  let r := dump_part Sample.library G (mkPart "boot" [Inputs.replace_op]) d in
  r.2 = ok tt
  ∧ d !! image_path (args_old G) "boot" = Some [9; 9; 9]%Z
  ∧ r.1 !! image_path (args_old G) "boot" = Some [1; 2; 3; 4]%Z
  ∧ r.1 !! image_path (args_old G) "boot" ≠ d !! image_path (args_old G) "boot".
Proof. repeat split. vm_compute. discriminate. Defined.

(** The same happens when the two directories are one directory spelled
    in two ways: with [images] for the output and [./images] for the old
    images the two paths differ and name one file, and the source image is
    overwritten. *)
Example source_image_overwritten_through_alias :
  let G := Sample.globals true "images" "./images" [1; 2; 3; 4]%Z in
  let d : gmap string bytes := {[ "images/boot.img" := [9; 9; 9]%Z ]} in
  let r := dump_part_via MoreInputs.strip_dot Sample.library G
                         (mkPart "boot" [Inputs.replace_op]) d in
  image_path (args_old G) "boot" ≠ image_path (args_out G) "boot"
  ∧ r.2 = ok tt
  ∧ d !! MoreInputs.strip_dot (image_path (args_old G) "boot")
    = Some [9; 9; 9]%Z
  ∧ r.1 !! MoreInputs.strip_dot (image_path (args_old G) "boot")
    = Some [1; 2; 3; 4]%Z.
Proof. repeat split. vm_compute. discriminate. Qed.

(** C4: SOURCE_COPY seeks once, to the first destination extent, and
    writes the source extents one after the other from there.  With a block
    size of 4, source extents [(0,2)] and destination extents
    [(0,1),(2,1)], the second source block lands at byte 4, right after the
    first, and not at byte 8 where the second destination extent is. *)
Theorem source_copy_writes_contiguously :
  let G := Sample.globals true "output" "old" [] in
  let d : gmap string bytes := {[ "old/boot.img" := Inputs.old_image ]} in
  let r := dump_part Sample.library G (mkPart "boot" [Inputs.copy_op]) d in
  r.2 = ok tt
  ∧ r.1 !! "output/boot.img" = Some [1; 2; 3; 4; 5; 6; 7; 8]%Z.
Proof. split; reflexivity. Qed.

(** * Further properties *)

(** ** Big-endian integers *)

Lemma be_uint_app (l : bytes) (b : Z) :
  be_uint (l ++ [b]) = (be_uint l * 256 + b)%Z.
Proof. unfold be_uint. by rewrite fold_left_app. Qed.

Lemma be_uint_range (x : bytes) :
  Forall (λ b, 0 ≤ b < 256)%Z x → (0 ≤ be_uint x < 256 ^ Z.of_nat (length x))%Z.
Proof.
  induction x as [|b l IH] using rev_ind; intros Hx.
  - simpl. unfold be_uint. simpl. lia.
  - apply Forall_app in Hx as [Hl Hb]. apply Forall_inv in Hb.
    specialize (IH Hl). rewrite be_uint_app, length_app. simpl.
    replace (Z.of_nat (length l + 1)) with (Z.of_nat (length l) + 1)%Z by lia.
    rewrite Z.pow_add_r by lia. change (256 ^ 1)%Z with 256%Z. lia.
Qed.

Lemma length_be_bytes n v : length (be_bytes n v) = n.
Proof.
  revert v. induction n as [|n IH]; intros v; simpl; [done|].
  rewrite length_app, IH. simpl. lia.
Qed.

Lemma be_bytes_range n v : Forall (λ b, 0 ≤ b < 256)%Z (be_bytes n v).
Proof.
  revert v. induction n as [|n IH]; intros v; simpl; [done|].
  apply Forall_app. split; [apply IH|]. apply Forall_singleton.
  apply Z.mod_pos_bound. lia.
Qed.

Lemma be_uint_be_bytes n v :
  be_uint (be_bytes n v) = (v mod 256 ^ Z.of_nat n)%Z.
Proof.
  revert v. induction n as [|n IH]; intros v.
  - simpl. unfold be_uint. simpl. by rewrite Z.mod_1_r.
  - cbn [be_bytes]. rewrite be_uint_app, IH.
    replace (Z.of_nat (S n)) with (1 + Z.of_nat n)%Z by lia.
    rewrite Z.pow_add_r by lia. change (256 ^ 1)%Z with 256%Z.
    rewrite Z.rem_mul_r by lia. lia.
Qed.

Lemma be_bytes_be_uint (x : bytes) :
  Forall (λ b, 0 ≤ b < 256)%Z x → be_bytes (length x) (be_uint x) = x.
Proof.
  induction x as [|b l IH] using rev_ind; intros Hx; [done|].
  apply Forall_app in Hx as [Hl Hb]. apply Forall_inv in Hb.
  rewrite length_app. simpl. replace (length l + 1) with (S (length l)) by lia.
  cbn [be_bytes]. rewrite be_uint_app.
  replace ((be_uint l * 256 + b) / 256)%Z with (be_uint l)
    by (rewrite Z.div_add_l by lia; rewrite Z.div_small by lia; lia).
  replace ((be_uint l * 256 + b) mod 256)%Z with b
    by (rewrite Z.add_comm, Z.mod_add by lia; by rewrite Z.mod_small).
  by rewrite IH.
Qed.

(** X1: [u32] accepts exactly the buffers of 4 bytes and [u64] those of 8;
    any other length raises.  On bytes (values from 0 to 255) the results
    are below 2^32 and 2^64. *)
Theorem unpack_length_and_range :
  (∀ x : bytes, length x ≠ 4 → ∃ e, u32 x = raise e)
  ∧ (∀ x : bytes, length x ≠ 8 → ∃ e, u64 x = raise e)
  ∧ (∀ x : bytes, length x = 4 → Forall (λ b, 0 ≤ b < 256)%Z x →
       ∃ n, u32 x = ok n ∧ (0 ≤ n < 2 ^ 32)%Z)
  ∧ (∀ x : bytes, length x = 8 → Forall (λ b, 0 ≤ b < 256)%Z x →
       ∃ n, u64 x = ok n ∧ (0 ≤ n < 2 ^ 64)%Z).
Proof.
  repeat split.
  - intros x Hx. unfold u32. rewrite decide_False by done. by eexists.
  - intros x Hx. unfold u64. rewrite decide_False by done. by eexists.
  - intros x Hlen Hx. unfold u32. rewrite decide_True by done.
    exists (be_uint x). split; [done|].
    pose proof (be_uint_range x Hx) as H. rewrite Hlen in H.
    by change (256 ^ Z.of_nat 4)%Z with (2 ^ 32)%Z in H.
  - intros x Hlen Hx. unfold u64. rewrite decide_True by done.
    exists (be_uint x). split; [done|].
    pose proof (be_uint_range x Hx) as H. rewrite Hlen in H.
    by change (256 ^ Z.of_nat 8)%Z with (2 ^ 64)%Z in H.
Qed.

Lemma unpack_length_and_range_witness :
  ∃ n, u32 [0; 0; 1; 2]%Z = ok n ∧ (0 ≤ n < 2 ^ 32)%Z.
Proof.
  apply (proj1 (proj2 (proj2 unpack_length_and_range)) [0; 0; 1; 2]%Z).
  - reflexivity.
  - repeat constructor; lia.
Defined.

(** X2: [u32] and [u64] invert the big-endian encoding: they decode the 4
    and 8 big-endian bytes of a number in range to that number, and the
    number they give for a buffer of bytes encodes back to the buffer, so
    that different buffers give different numbers. *)
Theorem unpack_big_endian_round_trip :
  (∀ n, (0 ≤ n < 2 ^ 32)%Z → u32 (be_bytes 4 n) = ok n)
  ∧ (∀ n, (0 ≤ n < 2 ^ 64)%Z → u64 (be_bytes 8 n) = ok n)
  ∧ (∀ (x : bytes) n, Forall (λ b, 0 ≤ b < 256)%Z x →
       u32 x = ok n → be_bytes 4 n = x)
  ∧ (∀ (x : bytes) n, Forall (λ b, 0 ≤ b < 256)%Z x →
       u64 x = ok n → be_bytes 8 n = x).
Proof.
  repeat split.
  - intros n Hn. unfold u32. rewrite decide_True by apply length_be_bytes.
    rewrite be_uint_be_bytes. change (256 ^ Z.of_nat 4)%Z with (2 ^ 32)%Z.
    by rewrite Z.mod_small.
  - intros n Hn. unfold u64. rewrite decide_True by apply length_be_bytes.
    rewrite be_uint_be_bytes. change (256 ^ Z.of_nat 8)%Z with (2 ^ 64)%Z.
    by rewrite Z.mod_small.
  - intros x n Hx. unfold u32. destruct (decide _) as [Hlen|]; [|done].
    intros [= <-]. rewrite <- Hlen. by apply be_bytes_be_uint.
  - intros x n Hx. unfold u64. destruct (decide _) as [Hlen|]; [|done].
    intros [= <-]. rewrite <- Hlen. by apply be_bytes_be_uint.
Qed.

Lemma unpack_big_endian_round_trip_witness :
  u64 (be_bytes 8 4096) = ok 4096%Z.
Proof.
  apply (proj1 (proj2 unpack_big_endian_round_trip) 4096%Z). lia.
Defined.

(** ** The container header *)

Lemma bytes_range_take (x : bytes) n :
  Forall (λ b, 0 ≤ b < 256)%Z x → Forall (λ b, 0 ≤ b < 256)%Z (take n x).
Proof. apply Forall_take. Qed.

Lemma bytes_range_drop (x : bytes) n :
  Forall (λ b, 0 ≤ b < 256)%Z x → Forall (λ b, 0 ≤ b < 256)%Z (drop n x).
Proof. apply Forall_drop. Qed.

(** The header, read field by field at fixed offsets. *)
Lemma read_header_eq (payloadfile : bytes) :
  read_header payloadfile =
  if decide (take 4 payloadfile = bytes_of_string "CrAU") then
    try file_format_version <- u64 (take 8 (drop 4 payloadfile));
    if decide (file_format_version = 2%Z) then
      try manifest_size <- u64 (take 8 (drop 12 payloadfile));
      try metadata_signature_size <- u32 (take 4 (drop 20 payloadfile));
      let m := bytesio_read (Some manifest_size) (drop 24 payloadfile) in
      let g := bytesio_read (Some metadata_signature_size) m.2 in
      ok (m.1, g.1, N.of_nat (length payloadfile - length g.2))
    else raise (AssertionError "")
  else raise (AssertionError "").
Proof.
  assert (∀ x : bytes, bytesio_read (Some 4%Z) x = (take 4 x, drop 4 x)) as H4
    by reflexivity.
  assert (∀ x : bytes, bytesio_read (Some 8%Z) x = (take 8 x, drop 8 x)) as H8
    by reflexivity.
  unfold read_header. rewrite H4.
  destruct (decide _) as [Hmagic|]; [|done].
  rewrite H8. destruct (u64 (take 8 (drop 4 payloadfile))) as [e|v]; [done|].
  cbn [rbind]. destruct (decide (v = 2%Z)) as [->|]; [|done].
  rewrite H8, drop_drop. change (4 + 8) with 12.
  destruct (u64 (take 8 (drop 12 payloadfile))) as [e|msize]; [done|].
  cbn [rbind]. change (1 <? 2)%Z with true. cbn iota.
  rewrite H4, !drop_drop. change (12 + 8) with 20. change (20 + 4) with 24.
  destruct (u32 (take 4 (drop 20 payloadfile))) as [e|ssize]; [done|].
  cbn [rbind].
  destruct (bytesio_read (Some msize) (drop 24 payloadfile)) as [m f1].
  cbn [fst snd]. by destruct (bytesio_read (Some ssize) f1) as [g f2].
Qed.

Lemma read_header_bad_magic (payloadfile : bytes) :
  take 4 payloadfile ≠ bytes_of_string "CrAU" →
  read_header payloadfile = raise (AssertionError "").
Proof. intros H. rewrite read_header_eq. by rewrite decide_False. Qed.

Lemma read_header_short (payloadfile : bytes) :
  length payloadfile < 24 → ∃ e, read_header payloadfile = raise e.
Proof.
  intros Hlen. rewrite read_header_eq.
  destruct (decide _) as [Hmagic|]; [|by eexists].
  destruct (u64 (take 8 (drop 4 payloadfile))) as [e|v]; [by eexists|].
  cbn [rbind]. destruct (decide _) as [Hv|]; [|by eexists].
  destruct (u64 (take 8 (drop 12 payloadfile))) as [e|msize]; [by eexists|].
  cbn [rbind]. unfold u32. rewrite decide_False; [by eexists|].
  rewrite length_take, length_drop. lia.
Qed.

(** X3: the header is refused with an [AssertionError] when the payload
    does not start with the magic CrAU, and when its version field is not
    2; and no payload of fewer than 24 bytes is accepted. *)
Theorem read_header_rejects :
  (∀ payloadfile : bytes,
     take 4 payloadfile ≠ bytes_of_string "CrAU" →
     read_header payloadfile = raise (AssertionError ""))
  ∧ (∀ (payloadfile : bytes) v,
       u64 (take 8 (drop 4 payloadfile)) = ok v → v ≠ 2%Z →
       read_header payloadfile = raise (AssertionError ""))
  ∧ (∀ payloadfile : bytes,
       length payloadfile < 24 → ∃ e, read_header payloadfile = raise e).
Proof.
  split; [apply read_header_bad_magic|]. split; [|apply read_header_short].
  intros payloadfile v Hv Hne. rewrite read_header_eq.
  destruct (decide _) as [Hmagic|]; [|done]. rewrite Hv. cbn [rbind ok].
  by rewrite decide_False.
Qed.

Lemma read_header_rejects_witness :
  read_header (bytes_of_string "CrAU" ++ [0; 0; 0; 0; 0; 0; 0; 1]
               ++ replicate 12 0)%Z
  = raise (AssertionError "").
Proof.
  apply (proj1 (proj2 read_header_rejects) _ 1%Z); [reflexivity|lia].
Defined.

Lemma read_header_ok_inv (payloadfile manifest metadata_signature : bytes) off :
  Forall (λ b, 0 ≤ b < 256)%Z payloadfile →
  read_header payloadfile = ok (manifest, metadata_signature, off) →
  take 4 payloadfile = bytes_of_string "CrAU"
  ∧ u64 (take 8 (drop 4 payloadfile)) = ok 2%Z
  ∧ ∃ manifest_size metadata_signature_size : nat,
      u64 (take 8 (drop 12 payloadfile)) = ok (Z.of_nat manifest_size)
      ∧ u32 (take 4 (drop 20 payloadfile)) = ok (Z.of_nat metadata_signature_size)
      ∧ manifest = take manifest_size (drop 24 payloadfile)
      ∧ metadata_signature
        = take metadata_signature_size (drop (24 + manifest_size) payloadfile)
      ∧ N.to_nat off = 24 + length manifest + length metadata_signature
      ∧ N.to_nat off
        = length payloadfile `min` (24 + manifest_size + metadata_signature_size).
Proof.
  intros Hrange. rewrite read_header_eq.
  destruct (decide _) as [Hmagic|]; [|done].
  destruct (u64 (take 8 (drop 4 payloadfile))) as [e|v] eqn:Hv; [done|].
  cbn [rbind]. destruct (decide (v = 2%Z)) as [->|]; [|done].
  destruct (u64 (take 8 (drop 12 payloadfile))) as [e|msize] eqn:Hm; [done|].
  cbn [rbind].
  destruct (u32 (take 4 (drop 20 payloadfile))) as [e|ssize] eqn:Hs; [done|].
  cbn [rbind].
  assert (0 ≤ msize)%Z as Hm0.
  { unfold u64 in Hm. destruct (decide _); [|done]. injection Hm as <-.
    apply be_uint_range. by apply bytes_range_take, bytes_range_drop. }
  assert (0 ≤ ssize)%Z as Hs0.
  { unfold u32 in Hs. destruct (decide _); [|done]. injection Hs as <-.
    apply be_uint_range. by apply bytes_range_take, bytes_range_drop. }
  assert (24 ≤ length payloadfile) as Hlen.
  { unfold u32 in Hs. destruct (decide _) as [H4|]; [|done].
    rewrite length_take, length_drop in H4. lia. }
  unfold bytesio_read.
  destruct (Z.ltb_spec msize 0); [lia|]. cbn [fst snd].
  destruct (Z.ltb_spec ssize 0); [lia|]. cbn [fst snd].
  intros [= <- <- <-]. split; [done|]. split; [done|].
  exists (Z.to_nat msize), (Z.to_nat ssize). rewrite !Z2Nat.id by done.
  rewrite !drop_drop. repeat split; try done.
  - rewrite !length_take, !length_drop. lia.
  - rewrite !length_drop. lia.
Qed.

(** X4: the layout of an accepted header.  The payload starts with CrAU
    and version 2; the manifest size is the big-endian integer at bytes 12
    to 19 and the signature size the one at bytes 20 to 23; the manifest
    and the metadata signature are the bytes that follow, in that order;
    and [data_offset] is the position after them, 24 + manifest size +
    signature size unless the payload ends before. *)
Theorem read_header_layout (payloadfile manifest metadata_signature : bytes)
    (off : N) :
  Forall (λ b, 0 ≤ b < 256)%Z payloadfile →
  read_header payloadfile = ok (manifest, metadata_signature, off) →
  take 4 payloadfile = bytes_of_string "CrAU"
  ∧ u64 (take 8 (drop 4 payloadfile)) = ok 2%Z
  ∧ ∃ manifest_size metadata_signature_size : nat,
      u64 (take 8 (drop 12 payloadfile)) = ok (Z.of_nat manifest_size)
      ∧ u32 (take 4 (drop 20 payloadfile)) = ok (Z.of_nat metadata_signature_size)
      ∧ manifest = take manifest_size (drop 24 payloadfile)
      ∧ metadata_signature
        = take metadata_signature_size (drop (24 + manifest_size) payloadfile)
      ∧ N.to_nat off = 24 + length manifest + length metadata_signature
      ∧ N.to_nat off
        = length payloadfile `min` (24 + manifest_size + metadata_signature_size).
Proof. apply read_header_ok_inv. Qed.

Lemma read_header_layout_witness :
  take 4 MoreInputs.payload = bytes_of_string "CrAU"
  ∧ u64 (take 8 (drop 4 MoreInputs.payload)) = ok 2%Z
  ∧ ∃ manifest_size metadata_signature_size : nat,
      u64 (take 8 (drop 12 MoreInputs.payload)) = ok (Z.of_nat manifest_size)
      ∧ u32 (take 4 (drop 20 MoreInputs.payload))
        = ok (Z.of_nat metadata_signature_size)
      ∧ [7; 8]%Z = take manifest_size (drop 24 MoreInputs.payload)
      ∧ [9]%Z = take metadata_signature_size
                     (drop (24 + manifest_size) MoreInputs.payload)
      ∧ N.to_nat 27 = 24 + length [7; 8]%Z + length [9]%Z
      ∧ N.to_nat 27
        = length MoreInputs.payload
          `min` (24 + manifest_size + metadata_signature_size).
Proof.
  apply (read_header_layout MoreInputs.payload [7; 8]%Z [9]%Z 27).
  - unfold MoreInputs.payload. simpl. repeat constructor; lia.
  - reflexivity.
Defined.

(** The reader on a well-formed header.  [bytesio_read] gives the bytes
    that are there for every size; a read of the code does so for the sizes
    it can be asked for, and the theorems on accepted headers take the
    sizes within the length of the payload. *)
Lemma read_header_well_formed (manifest_size metadata_signature_size : Z)
    (rest : bytes) :
  (0 ≤ manifest_size < 2 ^ 64)%Z →
  (0 ≤ metadata_signature_size < 2 ^ 32)%Z →
  read_header (bytes_of_string "CrAU" ++ be_bytes 8 2 ++ be_bytes 8 manifest_size
               ++ be_bytes 4 metadata_signature_size ++ rest)
  = ok (take (Z.to_nat manifest_size) rest,
        take (Z.to_nat metadata_signature_size) (drop (Z.to_nat manifest_size) rest),
        N.of_nat (24 + length rest
                  `min` (Z.to_nat manifest_size + Z.to_nat metadata_signature_size))).
Proof.
  intros Hm Hs. rewrite read_header_eq.
  set (p := _ ++ _).
  assert (take 4 p = bytes_of_string "CrAU") as Hmagic
    by (unfold p; by rewrite take_app_length').
  assert (drop 4 p = be_bytes 8 2 ++ be_bytes 8 manifest_size
                     ++ be_bytes 4 metadata_signature_size ++ rest) as H4
    by (unfold p; by rewrite drop_app_length').
  assert (drop 12 p = be_bytes 8 manifest_size
                      ++ be_bytes 4 metadata_signature_size ++ rest) as H12.
  { change 12 with (4 + 8). rewrite <- drop_drop, H4.
    by rewrite drop_app_length' by (by rewrite length_be_bytes). }
  assert (drop 20 p = be_bytes 4 metadata_signature_size ++ rest) as H20.
  { change 20 with (12 + 8). rewrite <- drop_drop, H12.
    by rewrite drop_app_length' by (by rewrite length_be_bytes). }
  assert (drop 24 p = rest) as H24.
  { change 24 with (20 + 4). rewrite <- drop_drop, H20.
    by rewrite drop_app_length' by (by rewrite length_be_bytes). }
  rewrite Hmagic, H4, H12, H20, H24.
  rewrite !take_app_length' by (by rewrite length_be_bytes).
  rewrite decide_True by done.
  change (u64 (be_bytes 8 2)) with (ok 2%Z). cbn [rbind ok].
  rewrite decide_True by done.
  unfold u64, u32. rewrite !decide_True by (by rewrite length_be_bytes). cbn [rbind ok].
  rewrite !be_uint_be_bytes.
  change (256 ^ Z.of_nat 8)%Z with (2 ^ 64)%Z.
  change (256 ^ Z.of_nat 4)%Z with (2 ^ 32)%Z.
  rewrite !Z.mod_small by done.
  unfold bytesio_read.
  destruct (Z.ltb_spec manifest_size 0); [lia|]. cbn [fst snd].
  destruct (Z.ltb_spec metadata_signature_size 0); [lia|]. cbn [fst snd].
  do 2 f_equal. f_equal.
  assert (length p = 24 + length rest) as ->.
  { rewrite <- H24, length_drop.
    assert (24 ≤ length p); [|lia].
    unfold p. rewrite !length_app, !length_be_bytes. simpl. lia. }
  rewrite !length_drop. lia.
Qed.

(** X5: a well-formed header whose sizes are within the payload is
    accepted.  A payload that starts with CrAU, the big-endian version 2
    and two size fields, neither of them larger than the length of the
    payload ([24 + length rest]), is read successfully, however short the
    rest is: a manifest or a signature cut off by the end of the payload is
    returned as it is, without an error, and [data_offset] stops at the end
    of the payload. *)
Theorem read_header_accepts (manifest_size metadata_signature_size : Z)
    (rest : bytes) :
  (0 ≤ manifest_size < 2 ^ 64)%Z →
  (0 ≤ metadata_signature_size < 2 ^ 32)%Z →
  (manifest_size ≤ Z.of_nat (24 + length rest))%Z →
  (metadata_signature_size ≤ Z.of_nat (24 + length rest))%Z →
  read_header (bytes_of_string "CrAU" ++ be_bytes 8 2 ++ be_bytes 8 manifest_size
               ++ be_bytes 4 metadata_signature_size ++ rest)
  = ok (take (Z.to_nat manifest_size) rest,
        take (Z.to_nat metadata_signature_size) (drop (Z.to_nat manifest_size) rest),
        N.of_nat (24 + length rest
                  `min` (Z.to_nat manifest_size + Z.to_nat metadata_signature_size))).
Proof. intros Hm Hs _ _. by apply read_header_well_formed. Qed.

Lemma read_header_accepts_witness :
  read_header (bytes_of_string "CrAU" ++ be_bytes 8 2 ++ be_bytes 8 2
               ++ be_bytes 4 1 ++ [7; 8; 9; 1; 2; 3]%Z)
  = ok ([7; 8]%Z, [9]%Z, 27%N)
  ∧ read_header (bytes_of_string "CrAU" ++ be_bytes 8 2 ++ be_bytes 8 2
                 ++ be_bytes 4 3 ++ [7; 8; 9]%Z)
    = ok ([7; 8]%Z, [9]%Z, 27%N).
Proof.
  split.
  - apply (read_header_accepts 2 1 [7; 8; 9; 1; 2; 3]%Z); simpl; lia.
  - apply (read_header_accepts 2 3 [7; 8; 9]%Z); simpl; lia.
Defined.

(** X6: a payload whose header is refused is refused before any file is
    touched: the run of [main] ends with the error and the disk as it
    was.  This holds for a wrong magic, for a payload of fewer than 24
    bytes, and for a manifest that the decoder refuses. *)
Theorem main_refused_touches_nothing (L : Library)
    (ParseFromString : bytes → result (N * list PartitionUpdate))
    (payloadfile : bytes) (diff : bool) (out old images : string)
    (d : gmap string bytes) :
  (take 4 payloadfile ≠ bytes_of_string "CrAU" →
   main L ParseFromString payloadfile diff out old images d
   = (d, raise (AssertionError "")))
  ∧ (length payloadfile < 24 →
     ∃ e, main L ParseFromString payloadfile diff out old images d = (d, raise e))
  ∧ (∀ manifest metadata_signature off e,
       read_header payloadfile = ok (manifest, metadata_signature, off) →
       ParseFromString manifest = raise e →
       main L ParseFromString payloadfile diff out old images d = (d, raise e)).
Proof.
  split; [|split].
  - intros H. unfold main. by rewrite read_header_bad_magic.
  - intros H. destruct (read_header_short payloadfile H) as [e He].
    exists e. unfold main. by rewrite He.
  - intros manifest metadata_signature off e Hh Hp. unfold main.
    rewrite Hh. cbn [rbind ok]. by rewrite Hp.
Qed.

Lemma main_refused_touches_nothing_witness :
  main Sample.library MoreInputs.no_manifest (bytes_of_string "PK") false
       "output" "old" "" ∅
  = (∅, raise (AssertionError "")).
Proof.
  apply (proj1 (main_refused_touches_nothing Sample.library MoreInputs.no_manifest
                  (bytes_of_string "PK") false "output" "old" "" ∅)).
  discriminate.
Defined.

(** ** The replace operations *)

Lemma write_at_nil (c : bytes) (pos : nat) : write_at c pos [] = c.
Proof. reflexivity. Qed.

Lemma length_write_at_cons (c : bytes) (pos : nat) x d :
  length (write_at c pos (x :: d))
  = length c `max` (pos + length (x :: d)).
Proof.
  rewrite write_at_cons, !length_app, length_take, length_replicate, length_drop.
  simpl. lia.
Qed.

(** Two writes one after the other are one write of the two buffers. *)
Lemma write_at_app (c d1 d2 : bytes) (pos : nat) :
  write_at (write_at c pos d1) (pos + length d1) d2 = write_at c pos (d1 ++ d2).
Proof.
  destruct d1 as [|x d1]; [by rewrite write_at_nil, Nat.add_0_r|].
  destruct d2 as [|y d2]; [by rewrite write_at_nil, app_nil_r|].
  set (W := write_at c pos (x :: d1)).
  assert (W = (take pos c ++ replicate (pos - length c) 0%Z ++ x :: d1)
              ++ drop (pos + length (x :: d1)) c) as HW
    by (unfold W; rewrite write_at_cons; by rewrite <- !app_assoc).
  assert (length (take pos c ++ replicate (pos - length c) 0%Z ++ x :: d1)
          = pos + length (x :: d1)) as Hlen.
  { rewrite !length_app, length_take, length_replicate. simpl. lia. }
  rewrite (write_at_cons W). change ((x :: d1) ++ y :: d2) with (x :: (d1 ++ y :: d2)).
  rewrite (write_at_cons c).
  rewrite HW at 1. rewrite take_app_length' by done.
  replace (pos + length (x :: d1) - length W) with 0
    by (unfold W; rewrite length_write_at_cons; lia).
  cbn [replicate app].
  replace (pos + length (x :: d1) + length (y :: d2))
    with ((pos + length (x :: d1)) + length (y :: d2)) by lia.
  rewrite <- (drop_drop W), HW, drop_app_length' by done.
  rewrite drop_drop.
  replace (pos + length (x :: d1 ++ y :: d2))
    with (pos + length (x :: d1) + length (y :: d2))
    by (simpl; rewrite length_app; simpl; lia).
  rewrite <- !app_assoc. simpl. done.
Qed.

Lemma contents_insert (d : gmap string bytes) name (c : bytes) :
  contents (<[name := c]> d) name = c.
Proof. unfold contents. by rewrite lookup_insert_eq. Qed.

Lemma contents_insert_ne (d : gmap string bytes) name other (c : bytes) :
  name ≠ other → contents (<[name := c]> d) other = contents d other.
Proof. intros H. unfold contents. by rewrite lookup_insert_ne. Qed.

Section Operations.
Context (L : Library) (G : Globals).

Lemma write_first_eq op ext exts (data : bytes) s :
  dst_extents op = ext :: exts →
  write_first G op data s
  = (mkState
       (<[f_name (out_file s) :=
            write_at (contents (disk s) (f_name (out_file s)))
                     (N.to_nat (start_block ext * block_size G)) data]> (disk s))
       (mkFile (f_name (out_file s))
               (start_block ext * block_size G + N.of_nat (length data)))
       (old_file s), ok data).
Proof. intros Hdst. unfold write_first, first_dst. by rewrite Hdst. Qed.

Lemma write_first_no_extent op (data : bytes) s :
  dst_extents op = [] →
  write_first G op data s = (s, raise (IndexError "list index out of range")).
Proof. intros Hdst. unfold write_first, first_dst. by rewrite Hdst. Qed.

(** A replace operation that passes the hash gate obtains its data, and
    then seeks to the first destination extent and writes them. *)
Lemma data_for_op_replace op r s :
  replace_data L (op_type op) (payload_data G op) = Some r →
  hash_gate L op (payload_data G op) = ok tt →
  data_for_op L G op s
  = match r with
    | inl e => (s, inl e)
    | inr data => write_first G op data s
    end.
Proof.
  intros Hr Hgate. unfold data_for_op. rewrite bind_eq. unfold lift.
  rewrite Hgate.
  destruct (op_type op); simpl in Hr; try done; injection Hr as <-;
    try (rewrite bind_eq; by destruct (_ L (payload_data G op))).
  reflexivity.
Qed.

(** X7: a REPLACE, REPLACE_BZ, REPLACE_XZ or ZSTD operation that passes the
    hash gate and whose data decompress writes the data, whole, at the byte
    offset of its first destination extent: the output image holds the
    data there, keeps its other bytes, and no other file changes; the
    output position ends after the data and the data are returned. *)
Theorem replace_writes_data (op : InstallOperation) (s : state)
    (ext : Extent) (exts : list Extent) (data : bytes) :
  replace_data L (op_type op) (payload_data G op) = Some (ok data) →
  hash_gate L op (payload_data G op) = ok tt →
  dst_extents op = ext :: exts →
  let pos := N.to_nat (start_block ext * block_size G) in
  let name := f_name (out_file s) in
  ∃ s', data_for_op L G op s = (s', ok data)
    ∧ out_file s'
      = mkFile name (start_block ext * block_size G + N.of_nat (length data))
    ∧ old_file s' = old_file s
    ∧ (∀ k, pos ≤ k < pos + length data →
            contents (disk s') name !! k = data !! (k - pos))
    ∧ (∀ k, pos + length data ≤ k →
            contents (disk s') name !! k = contents (disk s) name !! k)
    ∧ (∀ k x, k < pos → contents (disk s) name !! k = Some x →
              contents (disk s') name !! k = Some x)
    ∧ (∀ other, other ≠ name → disk s' !! other = disk s !! other).
Proof.
  intros Hr Hgate Hdst pos name. eexists. split.
  { rewrite (data_for_op_replace op _ s Hr Hgate). by apply (write_first_eq op ext exts). }
  cbn [out_file old_file disk]. fold name.
  split; [done|]. split; [done|].
  rewrite !contents_insert.
  split; [intros k Hk; by apply lookup_write_at_inside|].
  split; [intros k Hk; by apply lookup_write_at_after|].
  split; [intros k x Hk Hx; by apply lookup_write_at_before|].
  intros other Hne. by rewrite lookup_insert_ne.
Qed.

(** X8: a replace operation writes nothing when it fails: when the codec
    refuses the data, the codec's error is raised, and when the operation
    has no destination extent, an [IndexError]; the disk and the file
    objects are as before. *)
Theorem replace_failure_writes_nothing (op : InstallOperation) (s : state) :
  hash_gate L op (payload_data G op) = ok tt →
  (∀ e, replace_data L (op_type op) (payload_data G op) = Some (raise e) →
        data_for_op L G op s = (s, raise e))
  ∧ (∀ data, replace_data L (op_type op) (payload_data G op) = Some (ok data) →
       dst_extents op = [] →
       data_for_op L G op s = (s, raise (IndexError "list index out of range"))).
Proof.
  intros Hgate. split.
  - intros e Hr. by rewrite (data_for_op_replace op _ s Hr Hgate).
  - intros data Hr Hdst. rewrite (data_for_op_replace op _ s Hr Hgate).
    by apply write_first_no_extent.
Qed.

(** X9: a replace operation looks at nothing of its destination extents
    but the start block of the first: the number of blocks of that extent
    and the extents after it change neither what is written nor where, so
    data longer than the first extent run on past it. *)
Theorem replace_ignores_extent_sizes (op : InstallOperation) (s : state)
    (b n1 n2 : N) (exts1 exts2 : list Extent) :
  is_Some (replace_data L (op_type op) (payload_data G op)) →
  data_for_op L G (with_dst_extents op (mkExtent b n1 :: exts1)) s
  = data_for_op L G (with_dst_extents op (mkExtent b n2 :: exts2)) s.
Proof.
  intros [r Hr]. destruct op as [ty off len h src dst]. cbn in Hr.
  unfold with_dst_extents. cbn [op_type op_data_offset op_data_length
    data_sha256_hash src_extents].
  destruct ty; try done; reflexivity.
Qed.

(** X10: outside differential mode a SOURCE_COPY operation exits with
    status -2 and a SOURCE_BSDIFF or BROTLI_BSDIFF operation with status
    -3, once the hash gate is passed and before anything is read or
    written. *)
Theorem diff_only_operations_exit (op : InstallOperation) (s : state) :
  args_diff G = false →
  hash_gate L op (payload_data G op) = ok tt →
  (op_type op = SOURCE_COPY →
   data_for_op L G op s = (s, raise (SystemExit (-2))))
  ∧ (op_type op = SOURCE_BSDIFF ∨ op_type op = BROTLI_BSDIFF →
     data_for_op L G op s = (s, raise (SystemExit (-3)))).
Proof.
  intros Hdiff Hgate. split.
  - intros Hty. unfold data_for_op. rewrite bind_eq. unfold lift.
    by rewrite Hgate, Hty, Hdiff.
  - intros [Hty|Hty]; unfold data_for_op; rewrite bind_eq; unfold lift;
      by rewrite Hgate, Hty, Hdiff.
Qed.

(** X11: the hash gate is transparent when the hash matches: an operation
    whose hash field equals the SHA-256 of its payload bytes does exactly
    what the same operation without a hash does. *)
Theorem matching_hash_is_transparent (op : InstallOperation) (s : state) :
  sha256 L (payload_data G op) = data_sha256_hash op →
  data_for_op L G op s = data_for_op L G (without_hash op) s.
Proof.
  intros Hsha. destruct op as [ty off len h src dst].
  unfold without_hash. cbn [op_type op_data_offset op_data_length
    data_sha256_hash src_extents dst_extents] in *.
  assert (∀ h', payload_data G (mkOp ty off len h' src dst)
                = payload_data G (mkOp ty off len h src dst)) as Hdata by done.
  unfold data_for_op. rewrite !bind_eq. unfold lift, hash_gate.
  cbn [data_sha256_hash]. rewrite (Hdata []).
  rewrite (decide_True (P := ([] = []))) by done.
  destruct (decide (h = [])) as [->|Hne]; [done|].
  rewrite decide_True by done. done.
Qed.

End Operations.

Lemma replace_writes_data_witness :
  let G := Sample.globals false "output" "old" [1; 2; 3; 4]%Z in
  let s := mkState {[ "output/boot.img" := [9; 9]%Z ]}
                   (mkFile "output/boot.img" 0) None in
  ∃ s', data_for_op Sample.library G Inputs.replace_op s = (s', ok [1; 2; 3; 4]%Z)
    ∧ out_file s' = mkFile "output/boot.img" (0 * 4 + N.of_nat 4)
    ∧ old_file s' = None
    ∧ (∀ k, 0 ≤ k < 0 + 4 →
            contents (disk s') "output/boot.img" !! k = [1; 2; 3; 4]%Z !! (k - 0))
    ∧ (∀ k, 0 + 4 ≤ k →
            contents (disk s') "output/boot.img" !! k = [9; 9]%Z !! k)
    ∧ (∀ k x, k < 0 → [9; 9]%Z !! k = Some x →
              contents (disk s') "output/boot.img" !! k = Some x)
    ∧ (∀ other, other ≠ "output/boot.img" → disk s' !! other = disk s !! other).
Proof.
  intros G s.
  apply (replace_writes_data Sample.library G Inputs.replace_op s
           (mkExtent 0 1) [] [1; 2; 3; 4]%Z eq_refl eq_refl eq_refl).
Defined.

Lemma replace_failure_writes_nothing_witness :
  let G := Sample.globals false "output" "old" [1; 2; 3; 4]%Z in
  let s := mkState ∅ (mkFile "output/boot.img" 0) None in
  data_for_op Sample.library G (mkOp REPLACE_BZ 0 4 [] [] [mkExtent 0 1]) s
  = (s, raise (LibraryError "invalid data stream")).
Proof.
  intros G s.
  apply (proj1 (replace_failure_writes_nothing Sample.library G
                  (mkOp REPLACE_BZ 0 4 [] [] [mkExtent 0 1]) s eq_refl)).
  reflexivity.
Defined.

Lemma replace_ignores_extent_sizes_witness :
  let G := Sample.globals false "output" "old" [1; 2; 3; 4]%Z in
  let s := mkState ∅ (mkFile "output/boot.img" 0) None in
  data_for_op Sample.library G
    (with_dst_extents Inputs.replace_op [mkExtent 2 1; mkExtent 9 1]) s
  = data_for_op Sample.library G
      (with_dst_extents Inputs.replace_op [mkExtent 2 0]) s.
Proof.
  intros G s.
  apply (replace_ignores_extent_sizes Sample.library G Inputs.replace_op s
           2 1 0 [mkExtent 9 1] []).
  by eexists.
Defined.

Lemma diff_only_operations_exit_witness :
  let G := Sample.globals false "output" "old" [] in
  let s := mkState ∅ (mkFile "output/boot.img" 0) None in
  data_for_op Sample.library G Inputs.copy_op s = (s, raise (SystemExit (-2))).
Proof.
  intros G s.
  apply (proj1 (diff_only_operations_exit Sample.library G Inputs.copy_op s
                  eq_refl eq_refl)).
  reflexivity.
Defined.

Lemma matching_hash_is_transparent_witness :
  let G := Sample.globals false "output" "old" [1; 2; 3; 4]%Z in
  let s := mkState ∅ (mkFile "output/boot.img" 0) None in
  let op := mkOp REPLACE 0 4 (4 :: replicate 31 0)%Z [] [mkExtent 0 1] in
  data_for_op Sample.library G op s
  = data_for_op Sample.library G (without_hash op) s.
Proof.
  intros G s op.
  apply (matching_hash_is_transparent Sample.library G op s). reflexivity.
Defined.

(** ** SOURCE_COPY and ZERO *)

Lemma source_bytes_cons G (old_image : bytes) ext exts :
  source_bytes G old_image (ext :: exts)
  = read_at old_image (N.to_nat (start_block ext * block_size G))
                      (N.to_nat (num_blocks ext * block_size G))
    ++ source_bytes G old_image exts.
Proof. reflexivity. Qed.

Lemma lookup_read_at (c : bytes) (pos n k : nat) :
  k < n → read_at c pos n !! k = c !! (pos + k).
Proof. intros H. unfold read_at. by rewrite lookup_take_lt, lookup_drop. Qed.

Section CopyAndZero.
Context (L : Library) (G : Globals).

(** Lines 105-108, the body of the loop of a SOURCE_COPY operation. *)
Lemma source_copy_loop (exts : list Extent) : ∀ (s : state) f (data0 : bytes),
  old_file s = Some f → f_name f ≠ f_name (out_file s) →
  ∃ s' data,
    fold_each (λ (_ : bytes) ext,
        do _ <- old_seek (start_block ext * block_size G);
        do data <- old_read (num_blocks ext * block_size G);
        do _ <- out_write data;
        ret data) data0 exts s = (s', ok data)
    ∧ contents (disk s') (f_name (out_file s))
      = write_at (contents (disk s) (f_name (out_file s)))
                 (N.to_nat (f_pos (out_file s)))
                 (source_bytes G (contents (disk s) (f_name f)) exts)
    ∧ ∀ other, other ≠ f_name (out_file s) → disk s' !! other = disk s !! other.
Proof.
  induction exts as [|ext exts IH]; intros s f data0 Hold Hne.
  - exists s, data0. by repeat split.
  - set (old := contents (disk s) (f_name f)).
    set (chunk := read_at old (N.to_nat (start_block ext * block_size G))
                              (N.to_nat (num_blocks ext * block_size G))).
    set (c := contents (disk s) (f_name (out_file s))).
    pose (s1 := mkState
      (<[f_name (out_file s) := write_at c (N.to_nat (f_pos (out_file s))) chunk]>
         (disk s))
      (mkFile (f_name (out_file s)) (f_pos (out_file s) + N.of_nat (length chunk)))
      (Some (mkFile (f_name f)
                    (start_block ext * block_size G + N.of_nat (length chunk))))).
    destruct (IH s1 (mkFile (f_name f)
                (start_block ext * block_size G + N.of_nat (length chunk))) chunk
                eq_refl Hne) as (s' & data & Hrun & Hc & Hother).
    unfold s1 in Hc, Hother. cbn [disk out_file old_file f_name f_pos] in Hc, Hother.
    exists s', data. split; [|split].
    + cbn [fold_each]. rewrite bind_eq.
      replace ((do _ <- old_seek (start_block ext * block_size G);
                do data <- old_read (num_blocks ext * block_size G);
                do _ <- out_write data; ret data) s) with (s1, ok chunk : result bytes);
        [exact Hrun|].
      destruct s as [d o ol]. cbn in Hold. subst ol. reflexivity.
    + rewrite Hc.
      rewrite contents_insert, contents_insert_ne by done.
      rewrite source_bytes_cons. fold old chunk c.
      rewrite <- write_at_app. do 2 f_equal. lia.
    + intros other Ho. rewrite (Hother other Ho).
      by rewrite lookup_insert_ne.
Qed.

(** X12: in differential mode, a SOURCE_COPY operation whose source image
    is another file than the output image copies the bytes of its source
    extents, concatenated in order, to the output image, in one piece
    that starts at the byte offset of the first destination extent; for a
    single source extent that lies within the source image, the output
    bytes from there on are the source bytes of the extent.  No other file
    changes. *)
Theorem source_copy_copies_source (op : InstallOperation) (s : state)
    (f : file) (ext : Extent) (exts : list Extent) :
  args_diff G = true →
  hash_gate L op (payload_data G op) = ok tt →
  op_type op = SOURCE_COPY →
  dst_extents op = ext :: exts →
  old_file s = Some f → f_name f ≠ f_name (out_file s) →
  let name := f_name (out_file s) in
  let pos := N.to_nat (start_block ext * block_size G) in
  let old := contents (disk s) (f_name f) in
  let src := source_bytes G old (src_extents op) in
  ∃ s' data, data_for_op L G op s = (s', ok data)
    ∧ contents (disk s') name = write_at (contents (disk s) name) pos src
    ∧ (∀ k, k < length src → contents (disk s') name !! (pos + k) = src !! k)
    ∧ (∀ e k, src_extents op = [e] →
         k < N.to_nat (num_blocks e * block_size G) →
         N.to_nat (start_block e * block_size G) + k < length old →
         contents (disk s') name !! (pos + k)
         = old !! (N.to_nat (start_block e * block_size G) + k))
    ∧ (∀ other, other ≠ name → disk s' !! other = disk s !! other).
Proof.
  intros Hdiff Hgate Hty Hdst Hold Hne name pos old src.
  pose (s0 := mkState (disk s) (mkFile name (start_block ext * block_size G))
                      (old_file s)).
  destruct (source_copy_loop (src_extents op) s0 f (payload_data G op) Hold Hne)
    as (s' & data & Hrun & Hc & Hother).
  cbn [disk out_file f_name f_pos s0] in Hc, Hother. fold name pos old src in Hc.
  assert (∀ k, k < length src → contents (disk s') name !! (pos + k) = src !! k)
    as Hin.
  { intros k Hk. rewrite Hc, lookup_write_at_inside by lia. f_equal. lia. }
  exists s', data. split; [|split; [done|split; [done|split; [|done]]]].
  - unfold data_for_op. rewrite bind_eq. unfold lift.
    rewrite Hgate, Hty, Hdiff. unfold ok at 1. cbn [negb]. rewrite bind_eq.
    unfold first_dst. rewrite Hdst. unfold ok at 1. cbn iota.
    rewrite bind_eq. exact Hrun.
  - intros e k He Hk Hlen.
    assert (src = read_at old (N.to_nat (start_block e * block_size G))
                           (N.to_nat (num_blocks e * block_size G))) as Hsrc.
    { unfold src. rewrite He, source_bytes_cons. apply app_nil_r. }
    rewrite Hin.
    + rewrite Hsrc. by apply lookup_read_at.
    + rewrite Hsrc. unfold read_at. rewrite length_take, length_drop. lia.
Qed.

(** Lines 132-134: what the loop of a ZERO operation leaves alone. *)
Lemma zero_loop_outside (exts : list Extent) : ∀ s s' r,
  for_each (zero_extent G) exts s = (s', r) →
  ∀ k x, contents (disk s) (f_name (out_file s)) !! k = Some x →
    (∀ ext, ext ∈ exts → ¬ in_extent G ext (N.of_nat k)) →
    contents (disk s') (f_name (out_file s)) !! k = Some x.
Proof.
  induction exts as [|ext exts IH]; intros s s' r.
  - intros [= <- <-]. done.
  - set (zeros := replicate (N.to_nat (num_blocks ext * block_size G)) 0%Z).
    pose (s1 := mkState
      (<[f_name (out_file s) :=
           write_at (contents (disk s) (f_name (out_file s)))
                    (N.to_nat (start_block ext * block_size G)) zeros]> (disk s))
      (mkFile (f_name (out_file s))
              (start_block ext * block_size G + N.of_nat (length zeros)))
      (old_file s)).
    assert (zero_extent G ext s = (s1, ok tt)) as Hstep by reflexivity.
    unfold for_each. cbn [fold_each]. rewrite bind_eq, Hstep.
    intros Hrun k x Hk Hout.
    apply (IH s1 s' r Hrun).
    + cbn [disk out_file f_name s1]. rewrite contents_insert.
      assert (¬ in_extent G ext (N.of_nat k)) as Hext by (apply Hout; left).
      unfold in_extent in Hext. rewrite N.mul_add_distr_r in Hext.
      destruct (decide (k < N.to_nat (start_block ext * block_size G))).
      * by apply lookup_write_at_before.
      * rewrite lookup_write_at_after; [done|].
        unfold zeros. rewrite length_replicate. lia.
    + intros e He. apply Hout. by right.
Qed.

(** X13: a ZERO operation changes no byte of the output image outside the
    byte ranges of its destination extents: every byte the image had at
    an offset that is in none of them is still there, whether or not the
    operation passes the hash gate. *)
Theorem zero_keeps_other_bytes (op : InstallOperation) (s s' : state)
    (r : result bytes) :
  op_type op = ZERO →
  data_for_op L G op s = (s', r) →
  ∀ k x, contents (disk s) (f_name (out_file s)) !! k = Some x →
    (∀ ext, ext ∈ dst_extents op → ¬ in_extent G ext (N.of_nat k)) →
    contents (disk s') (f_name (out_file s)) !! k = Some x.
Proof.
  intros Hty. unfold data_for_op. rewrite bind_eq. unfold lift.
  destruct (hash_gate L op (payload_data G op)) as [e|[]].
  { by intros [= <- <-]. }
  rewrite Hty, bind_eq.
  destruct (for_each (zero_extent G) (dst_extents op) s) as [s1 [e|[]]] eqn:Hrun.
  - intros [= <- <-]. by apply (zero_loop_outside _ _ _ _ Hrun).
  - intros [= <- <-]. by apply (zero_loop_outside _ _ _ _ Hrun).
Qed.

End CopyAndZero.

Lemma source_copy_copies_source_witness :
  let G := Sample.globals true "output" "old" [] in
  let s := mkState {[ "old/boot.img" := Inputs.old_image ]}
                   (mkFile "output/boot.img" 0) (Some (mkFile "old/boot.img" 0)) in
  ∃ s' data, data_for_op Sample.library G Inputs.copy_op s = (s', ok data)
    ∧ contents (disk s') "output/boot.img" = [1; 2; 3; 4; 5; 6; 7; 8]%Z.
Proof.
  intros G s.
  destruct (source_copy_copies_source Sample.library G Inputs.copy_op s
              (mkFile "old/boot.img" 0) (mkExtent 0 1) [mkExtent 2 1]
              eq_refl eq_refl eq_refl eq_refl eq_refl)
    as (s' & data & Hrun & Hc & _).
  - discriminate.
  - exists s', data. split; [exact Hrun|]. exact Hc.
Defined.

Lemma zero_keeps_other_bytes_witness :
  let G := Sample.globals false "output" "old" [] in
  let s := mkState {[ "output/boot.img" := [5; 6; 7; 8; 9]%Z ]}
                   (mkFile "output/boot.img" 0) None in
  let r := data_for_op Sample.library G Inputs.zero_op s in
  contents (disk r.1) "output/boot.img" !! 2 = Some 7%Z.
Proof.
  intros G s r.
  apply (zero_keeps_other_bytes Sample.library G Inputs.zero_op s r.1 r.2 eq_refl
           (surjective_pairing r) 2 7%Z eq_refl).
  intros ext Hext Hin. unfold in_extent in Hin.
  apply elem_of_cons in Hext as [->|Hext].
  - cbn in Hin. lia.
  - apply elem_of_cons in Hext as [->|Hext]; [|by apply elem_of_nil in Hext].
    cbn in Hin. lia.
Defined.

(** ** Dumping partitions *)

Lemma for_each_ok_inv {S A} (body : A → io S unit) x l s s' :
  for_each body (x :: l) s = (s', ok tt) →
  ∃ s1, body x s = (s1, ok tt) ∧ for_each body l s1 = (s', ok tt).
Proof.
  unfold for_each. cbn [fold_each]. rewrite bind_eq.
  destruct (body x s) as [s1 [e|[]]]; [done|]. eauto.
Qed.

Lemma for_each_frame {A} (body : A → io (gmap string bytes) unit) l name :
  (∀ x d d' r, x ∈ l → body x d = (d', r) → d' !! name = d !! name) →
  ∀ d d' r, for_each body l d = (d', r) → d' !! name = d !! name.
Proof.
  induction l as [|x l IH]; intros Hbody d d' r.
  - by intros [= <- <-].
  - unfold for_each. cbn [fold_each]. rewrite bind_eq.
    destruct (body x d) as [d1 [e|[]]] eqn:Hx.
    + intros [= <- <-]. apply (Hbody x d d1 (inl e)); [left|done].
    + intros Hrest. transitivity (d1 !! name).
      * apply (IH (λ y d2 d3 r2 Hy, Hbody y d2 d3 r2 ltac:(by right)) d1 d' r Hrest).
      * apply (Hbody x d d1 (inr tt)); [left|done].
Qed.

Section Partitions.
Context (L : Library) (G : Globals).

Lemma keep_ret {A} (a : A) : keeps_files (ret a).
Proof. by intros s s' r name [= <- <-]. Qed.

Lemma keep_throw {A} e : keeps_files (@throw state A e).
Proof. by intros s s' r name [= <- <-]. Qed.

Lemma keep_lift {A} (x : result A) : keeps_files (lift x).
Proof. by intros s s' r name [= <- <-]. Qed.

Lemma keep_bind {A B} (m : io state A) (k : A → io state B) :
  keeps_files m → (∀ a, keeps_files (k a)) → keeps_files (bind m k).
Proof.
  intros Hm Hk s s' r name. rewrite bind_eq.
  destruct (m s) as [s1 [e|a]] eqn:Hms.
  - intros [= <- <-]. by apply (Hm _ _ _ _ Hms).
  - intros Hka Hs. apply (Hk a _ _ _ _ Hka). by apply (Hm _ _ _ _ Hms).
Qed.

Lemma keep_fold_each {A B} (body : B → A → io state B) l :
  (∀ acc x, keeps_files (body acc x)) → ∀ acc, keeps_files (fold_each body acc l).
Proof.
  intros Hbody. induction l as [|x l IH]; intros acc; simpl.
  - apply keep_ret.
  - apply keep_bind; [apply Hbody|apply IH].
Qed.

Lemma keep_out_seek off : keeps_files (out_seek off).
Proof. by intros s s' r name [= <- <-]. Qed.

Lemma keep_out_write data : keeps_files (out_write data).
Proof.
  intros s s' r name [= <- <-] Hs. cbn [disk].
  destruct (decide (f_name (out_file s) = name)) as [->|Hne].
  - rewrite lookup_insert_eq. by eexists.
  - by rewrite lookup_insert_ne.
Qed.

Lemma keep_old_seek off : keeps_files (old_seek off).
Proof.
  intros s s' r name. unfold old_seek. by destruct (old_file s); intros [= <- <-].
Qed.

Lemma keep_old_read n : keeps_files (old_read n).
Proof.
  intros s s' r name. unfold old_read. by destruct (old_file s); intros [= <- <-].
Qed.

Ltac keep :=
  repeat first
    [ apply keep_ret | apply keep_throw | apply keep_lift
    | apply keep_out_seek | apply keep_out_write
    | apply keep_old_seek | apply keep_old_read
    | apply keep_fold_each; intros
    | apply keep_bind; [|intros]
    | match goal with
      | |- keeps_files (match ?x with _ => _ end) => destruct x
      | |- keeps_files ((match ?x with _ => _ end) _) => destruct x
      end ].

Lemma keep_data_for_op op : keeps_files (data_for_op L G op).
Proof. unfold data_for_op, write_first, for_each, zero_extent. keep. Qed.

Lemma keep_run_operations ops : keeps_files (run_operations L G ops).
Proof.
  unfold run_operations, for_each.
  apply keep_fold_each. intros _ op.
  apply keep_bind; [apply keep_data_for_op|intros; apply keep_ret].
Qed.

(** What [dump_part] does after it has opened the output image. *)
Lemma dump_part_eq part (d : gmap string bytes) :
  dump_part L G part d =
  let out := image_path (args_out G) (partition_name part) in
  let old := image_path (args_old G) (partition_name part) in
  let d0 := <[out := []]> d in
  if args_diff G then
    match d0 !! old with
    | Some _ =>
        let '(s, r) := run_operations L G (operations part)
                         (mkState d0 (mkFile out 0) (Some (mkFile old 0))) in
        (disk s, r)
    | None => (d0, raise (FileNotFoundError old))
    end
  else
    let '(s, r) := run_operations L G (operations part)
                     (mkState d0 (mkFile out 0) None) in
    (disk s, r).
Proof.
  unfold dump_part, bind, open_wb, open_rb, ret. cbn zeta.
  destruct (args_diff G); [|done]. by destruct (_ !! _).
Qed.

Lemma dump_part_ext part (d d' : gmap string bytes) :
  (∀ name, name ≠ image_path (args_out G) (partition_name part) →
           d !! name = d' !! name) →
  dump_part L G part d = dump_part L G part d'.
Proof.
  intros H. rewrite !dump_part_eq. cbn zeta.
  assert (<[image_path (args_out G) (partition_name part) := []]> d
          = <[image_path (args_out G) (partition_name part) := []]> d') as ->; [|done].
  apply map_eq. intros name.
  destruct (decide (image_path (args_out G) (partition_name part) = name)) as [<-|Hne].
  - by rewrite !lookup_insert_eq.
  - rewrite !lookup_insert_ne by done. by apply H.
Qed.

(** Dumping a partition removes no file and leaves its output image in
    place, whatever the result. *)
Lemma dump_part_keeps part (d d' : gmap string bytes) r :
  dump_part L G part d = (d', r) →
  is_Some (d' !! image_path (args_out G) (partition_name part))
  ∧ ∀ name, is_Some (d !! name) → is_Some (d' !! name).
Proof.
  rewrite dump_part_eq. cbn zeta.
  set (out := image_path (args_out G) (partition_name part)).
  set (d0 := <[out := []]> d).
  assert (is_Some (d0 !! out)) as Hout
    by (unfold d0; rewrite lookup_insert_eq; by eexists).
  assert (∀ name, is_Some (d !! name) → is_Some (d0 !! name)) as Hd0.
  { intros name Hn. unfold d0. destruct (decide (out = name)) as [<-|Hne].
    - done.
    - by rewrite lookup_insert_ne. }
  assert (∀ old s1 r1,
    run_operations L G (operations part) (mkState d0 (mkFile out 0) old) = (s1, r1) →
    ∀ name, is_Some (d0 !! name) → is_Some (disk s1 !! name)) as Hrun.
  { intros old s1 r1 H name. apply (keep_run_operations _ _ _ _ name H). }
  destruct (args_diff G).
  - destruct (d0 !! image_path (args_old G) (partition_name part));
      [|intros [= <- <-]; by split].
    destruct (run_operations _ _ _ _) as [s1 r1] eqn:H. intros [= <- <-].
    split; [by apply (Hrun _ _ _ H)|]. intros name Hn. by apply (Hrun _ _ _ H), Hd0.
  - destruct (run_operations _ _ _ _) as [s1 r1] eqn:H. intros [= <- <-].
    split; [by apply (Hrun _ _ _ H)|]. intros name Hn. by apply (Hrun _ _ _ H), Hd0.
Qed.

(** With paths that are the names of the files, [dump_part_via] is
    [dump_part]. *)
Lemma dump_part_via_id part : dump_part_via id L G part = dump_part L G part.
Proof. reflexivity. Qed.



(** X15: the result of dumping a partition does not depend on what the
    output image held before, nor on whether it existed; and dumping a
    partition a second time, on the disk the first run left, gives the
    same result and the same disk. *)
Theorem dump_part_idempotent (part : PartitionUpdate) :
  (∀ d d' : gmap string bytes,
     (∀ name, name ≠ image_path (args_out G) (partition_name part) →
              d !! name = d' !! name) →
     dump_part L G part d = dump_part L G part d')
  ∧ (∀ d : gmap string bytes,
       dump_part L G part (dump_part L G part d).1 = dump_part L G part d).
Proof.
  split; [apply dump_part_ext|].
  intros d. apply dump_part_ext. intros name Hne.
  apply (dump_part_other_files L G part d _ (dump_part L G part d).2 name Hne).
  apply surjective_pairing.
Qed.

(** X16: when all the partitions are dumped and none fails, the output
    image of every partition exists at the end. *)
Theorem dump_images_creates_images (partitions : list PartitionUpdate)
    (d d' : gmap string bytes) :
  args_images G = "" →
  dump_images L G partitions d = (d', ok tt) →
  ∀ part, part ∈ partitions →
    is_Some (d' !! image_path (args_out G) (partition_name part)).
Proof.
  intros Himg. unfold dump_images. rewrite decide_True by done.
  revert d. induction partitions as [|p ps IH]; intros d Hrun part Hin.
  - by apply elem_of_nil in Hin.
  - apply for_each_ok_inv in Hrun as (d1 & Hp & Hps).
    apply elem_of_cons in Hin as [->|Hin]; [|by apply (IH d1)].
    destruct (dump_part_keeps _ _ _ _ Hp) as [Hout _].
    clear IH Hp. revert d1 Hout Hps.
    induction ps as [|q qs IHq]; intros d1 Hout.
    + by intros [= <-].
    + intros Hqs. apply for_each_ok_inv in Hqs as (d2 & Hq & Hqs).
      apply (IHq d2); [|done]. by apply (dump_part_keeps _ _ _ _ Hq).
Qed.

Lemma dump_image_frame partitions image (d d' : gmap string bytes) r name :
  (∀ part, part ∈ partitions →
           name ≠ image_path (args_out G) (partition_name part)) →
  dump_image L G partitions image d = (d', r) → d' !! name = d !! name.
Proof.
  intros Hname. unfold dump_image.
  destruct (filter _ partitions) as [|part rest] eqn:Hf.
  - by intros [= <- <-].
  - apply dump_part_other_files. apply Hname.
    assert (part ∈ filter (λ part, partition_name part = image) partitions) as Hin
      by (rewrite Hf; left).
    by apply list_elem_of_filter in Hin as [_ Hin].
Qed.

(** X17: a run, over all the partitions or over the requested images,
    changes no file but output images of partitions of the payload,
    whether it succeeds or fails. *)
Theorem dump_images_touches_only_outputs (partitions : list PartitionUpdate)
    (d d' : gmap string bytes) (r : result unit) (name : string) :
  (∀ part, part ∈ partitions →
           name ≠ image_path (args_out G) (partition_name part)) →
  dump_images L G partitions d = (d', r) →
  d' !! name = d !! name.
Proof.
  intros Hname. unfold dump_images. destruct (decide _).
  - apply for_each_frame. intros part d1 d2 r1 Hin.
    apply dump_part_other_files. by apply Hname.
  - apply for_each_frame. intros image d1 d2 r1 _. by apply dump_image_frame.
Qed.

(** X18: a requested image that names no partition of the payload is
    skipped without an error and without touching the disk; one that
    names several partitions dumps the first of them only. *)
Theorem dump_image_selection (partitions : list PartitionUpdate)
    (image : string) :
  ((∀ part, part ∈ partitions → partition_name part ≠ image) →
   ∀ d, dump_image L G partitions image d = (d, ok tt))
  ∧ (∀ before part after,
       partitions = before ++ part :: after →
       partition_name part = image →
       (∀ p, p ∈ before → partition_name p ≠ image) →
       dump_image L G partitions image = dump_part L G part).
Proof.
  assert (∀ l : list PartitionUpdate,
            (∀ p, p ∈ l → partition_name p ≠ image) →
            filter (λ p, partition_name p = image) l = []) as Hnone.
  { induction l as [|p l IH]; intros H; [done|].
    rewrite filter_cons_False by (apply H; left).
    apply IH. intros q Hq. apply H. by right. }
  split.
  - intros H d. unfold dump_image. by rewrite Hnone.
  - intros before part after -> Hname Hbefore. unfold dump_image.
    by rewrite filter_app, (Hnone before Hbefore), filter_cons_True.
Qed.

End Partitions.


Lemma dump_part_idempotent_witness :
  let G := Sample.globals false "output" "old" [1; 2; 3; 4]%Z in
  let part := mkPart "boot" [Inputs.replace_op] in
  dump_part Sample.library G part {[ "output/boot.img" := [9; 9; 9; 9; 9]%Z ]}
  = dump_part Sample.library G part ∅.
Proof.
  intros G part.
  apply (proj1 (dump_part_idempotent Sample.library G part)).
  intros name Hne. rewrite lookup_empty. apply lookup_singleton_ne.
  intros <-. by apply Hne.
Defined.

Lemma dump_images_creates_images_witness :
  let G := Sample.globals false "output" "old" [1; 2; 3; 4]%Z in
  let parts := [mkPart "boot" [Inputs.replace_op]; mkPart "system" []] in
  is_Some ((dump_images Sample.library G parts ∅).1 !! "output/system.img").
Proof.
  intros G parts.
  apply (dump_images_creates_images Sample.library G parts ∅
           (dump_images Sample.library G parts ∅).1 eq_refl eq_refl
           (mkPart "system" [])).
  right. left.
Defined.

Lemma dump_images_touches_only_outputs_witness :
  let G := Sample.globals false "output" "old" [1; 2; 3; 4]%Z in
  let parts := [mkPart "boot" [Inputs.replace_op]] in
  let d : gmap string bytes := {[ "notes.txt" := [7]%Z ]} in
  (dump_images Sample.library G parts d).1 !! "notes.txt" = Some [7]%Z.
Proof.
  intros G parts d.
  refine (eq_trans (dump_images_touches_only_outputs Sample.library G parts d
                      _ (dump_images Sample.library G parts d).2 "notes.txt" _
                      (surjective_pairing _)) _).
  - intros part Hin. apply elem_of_cons in Hin as [->|Hin].
    + vm_compute. discriminate.
    + by apply elem_of_nil in Hin.
  - reflexivity.
Defined.

Lemma dump_image_selection_witness :
  let G := Sample.globals false "output" "old" [1; 2; 3; 4]%Z in
  dump_image Sample.library G [mkPart "boot" [Inputs.replace_op]] "vendor" ∅
  = (∅, ok tt).
Proof.
  intros G.
  apply (proj1 (dump_image_selection Sample.library G
                  [mkPart "boot" [Inputs.replace_op]] "vendor")).
  intros part Hin. apply elem_of_cons in Hin as [->|Hin].
  - discriminate.
  - by apply elem_of_nil in Hin.
Defined.

(** ** The list of requested images *)

Lemma split_comma_nonempty s : split_comma s ≠ [].
Proof.
  destruct s as [|c s]; [done|]. cbn [split_comma].
  destruct (decide _); [done|]. by destruct (split_comma s).
Qed.

Lemma join_comma_cons w l :
  l ≠ [] → join_comma (w :: l) = w +:+ "," +:+ join_comma l.
Proof. by destruct l. Qed.

(** X19: [split_comma] inverts joining with commas: the pieces of a string,
    joined with commas, give the string back; there is always at least
    one piece, no piece holds a comma, and a string without a comma is its
    own single piece. *)
Theorem split_comma_round_trip (s : string) :
  join_comma (split_comma s) = s
  ∧ split_comma s ≠ []
  ∧ Forall (λ w, has_comma w = false) (split_comma s)
  ∧ (has_comma s = false → split_comma s = [s]).
Proof.
  split; [|split; [apply split_comma_nonempty|split]].
  - induction s as [|c s IH]; [done|]. cbn [split_comma].
    destruct (decide (c = ","%char)) as [->|Hc].
    + rewrite join_comma_cons by apply split_comma_nonempty. by rewrite IH.
    + pose proof (split_comma_nonempty s) as Hne.
      destruct (split_comma s) as [|w ws]; [done|].
      destruct ws as [|w' ws].
      * cbn in IH. by rewrite <- IH.
      * rewrite join_comma_cons by done. rewrite join_comma_cons in IH by done.
        by rewrite <- IH.
  - induction s as [|c s IH]; [by repeat constructor|]. cbn [split_comma].
    destruct (decide (c = ","%char)) as [->|Hc]; [by constructor|].
    destruct (split_comma s) as [|w ws]; [by repeat constructor; cbn; rewrite decide_False|].
    apply Forall_cons in IH as [Hw Hws]. constructor; [|done].
    cbn. by rewrite decide_False.
  - induction s as [|c s IH]; [done|]. cbn [split_comma has_comma].
    destruct (decide (c = ","%char)); [done|]. intros H. by rewrite (IH H).
Qed.

Lemma split_comma_round_trip_witness :
  split_comma "boot" = ["boot"].
Proof.
  apply (proj2 (proj2 (proj2 (split_comma_round_trip "boot")))). reflexivity.
Defined.

(** ** More on the patch reader *)

Lemma bsdf2_read_patch_codecs_raise L (fi : bytes) e :
  patch_codecs (take 8 fi) = raise e → bsdf2_read_patch L fi = raise e.
Proof.
  intros He.
  assert (∀ x : bytes, bytesio_read (Some 8%Z) x = (take 8 x, drop 8 x)) as H8
    by reflexivity.
  unfold bsdf2_read_patch. by rewrite H8, He.
Qed.

(** The reader after a valid magic and three decodable length fields. *)
Lemma bsdf2_read_patch_body L (fi : bytes)
    alg_control alg_diff alg_extra len_control len_diff len_dst :
  patch_codecs (take 8 fi) = ok (alg_control, alg_diff, alg_extra) →
  decode_int64 L (take 8 (drop 8 fi)) = ok len_control →
  decode_int64 L (take 8 (drop 16 fi)) = ok len_diff →
  decode_int64 L (take 8 (drop 24 fi)) = ok len_dst →
  bsdf2_read_patch L fi =
  try bcontrol <- bsdf2_decompress L alg_control
                    (bytesio_read (Some len_control) (drop 32 fi)).1;
  try tcontrol <- control_tuples L bcontrol;
  try bdiff <- bsdf2_decompress L alg_diff
                 (bytesio_read (Some len_diff)
                    (bytesio_read (Some len_control) (drop 32 fi)).2).1;
  try bextra <- bsdf2_decompress L alg_extra
                  (bytesio_read (Some len_diff)
                     (bytesio_read (Some len_control) (drop 32 fi)).2).2;
  ok (len_dst, tcontrol, bdiff, bextra).
Proof.
  intros Hmagic Hlc Hld Hldst.
  assert (∀ x : bytes, bytesio_read (Some 8%Z) x = (take 8 x, drop 8 x)) as H8
    by reflexivity.
  unfold bsdf2_read_patch.
  rewrite H8, Hmagic. cbn [rbind ok].
  rewrite H8, Hlc. cbn [rbind ok].
  rewrite H8, drop_drop. change (8 + 8) with 16. rewrite Hld. cbn [rbind ok].
  rewrite H8, drop_drop. change (16 + 8) with 24. rewrite Hldst. cbn [rbind ok].
  rewrite drop_drop. change (24 + 8) with 32.
  destruct (bytesio_read (Some len_control) (drop 32 fi)) as [b fi1].
  cbn [fst snd]. destruct (bsdf2_decompress L alg_control b) as [e|bc]; [done|].
  cbn [rbind]. destruct (control_tuples L bc) as [e|t]; [done|]. cbn [rbind].
  destruct (bytesio_read (Some len_diff) fi1) as [b2 fi2]. cbn [fst snd].
  destruct (bsdf2_decompress L alg_diff b2) as [e|bd]; [done|]. cbn [rbind].
  reflexivity.
Qed.

Lemma take_drop_app_header (header rest : bytes) k :
  k + 8 ≤ length header →
  take 8 (drop k (header ++ rest)) = take 8 (drop k header).
Proof.
  intros H. rewrite drop_app_le by lia.
  apply take_app_le. rewrite length_drop. lia.
Qed.

Lemma bsdf2_decompress_0 L (data : bytes) :
  bsdf2_decompress L 0 data = ok (Some data).
Proof. reflexivity. Qed.

(** The reader on an uncompressed BSDF2 patch, split into its 32-byte
    header and the rest. *)
Lemma bsdf2_read_patch_header L (header rest : bytes) len_control len_diff len_dst :
  length header = 32 →
  patch_codecs (take 8 header) = ok (0, 0, 0)%Z →
  decode_int64 L (take 8 (drop 8 header)) = ok len_control →
  decode_int64 L (take 8 (drop 16 header)) = ok len_diff →
  decode_int64 L (take 8 (drop 24 header)) = ok len_dst →
  bsdf2_read_patch L (header ++ rest) =
  try bcontrol <- bsdf2_decompress L 0 (bytesio_read (Some len_control) rest).1;
  try tcontrol <- control_tuples L bcontrol;
  try bdiff <- bsdf2_decompress L 0
                 (bytesio_read (Some len_diff)
                    (bytesio_read (Some len_control) rest).2).1;
  try bextra <- bsdf2_decompress L 0
                  (bytesio_read (Some len_diff)
                     (bytesio_read (Some len_control) rest).2).2;
  ok (len_dst, tcontrol, bdiff, bextra).
Proof.
  intros Hlen Hmagic Hlc Hld Hldst.
  rewrite (bsdf2_read_patch_body L (header ++ rest) 0 0 0 len_control len_diff len_dst).
  - by rewrite drop_app_length' by done.
  - by rewrite take_app_le by lia.
  - by rewrite take_drop_app_header by lia.
  - by rewrite take_drop_app_header by lia.
  - by rewrite take_drop_app_header by lia.
Qed.

(** X20: a patch of fewer than 8 bytes is never read: when it starts with
    the BSDF2 signature the reader raises an [IndexError] at a missing
    codec byte, and otherwise the invalid-magic [ValueError]. *)
Theorem read_patch_short_input (L : Library) (fi : bytes) :
  length fi < 8 →
  (take 5 fi = BSDF2_MAGIC →
   bsdf2_read_patch L fi = raise (IndexError "index out of range"))
  ∧ (take 5 fi ≠ BSDF2_MAGIC →
     bsdf2_read_patch L fi
     = raise (ValueError "Invalid bsdiff/BSDF2 magic signature")).
Proof.
  intros Hlen.
  assert (take 8 fi = fi) as Htake by (apply take_ge; lia).
  assert (fi ≠ bsdiff4_format_MAGIC) as Hne.
  { intros ->. simpl in Hlen. lia. }
  split; intros H5; apply bsdf2_read_patch_codecs_raise; rewrite Htake.
  - unfold patch_codecs. rewrite decide_False, decide_True by done.
    destruct fi as [|a [|b [|c [|d [|e [|f [|g [|h t]]]]]]]];
      simpl in Hlen; try lia; try discriminate H5; reflexivity.
  - by apply patch_codecs_invalid.
Qed.

Lemma read_patch_short_input_witness :
  bsdf2_read_patch Sample.library (BSDF2_MAGIC ++ [0; 0])%Z
  = raise (IndexError "index out of range").
Proof.
  apply (proj1 (read_patch_short_input Sample.library (BSDF2_MAGIC ++ [0; 0])%Z
                  ltac:(simpl; lia))).
  reflexivity.
Defined.

(** X21: in a BSDF2 patch without compression the three streams are
    consecutive slices of what follows the 32-byte header: the control
    stream is the first [len_control] bytes, the diff stream the next
    [len_diff] bytes and the extra stream all the rest.  A patch that ends
    early gives shorter streams and no error, and [len_dst] is returned as
    decoded. *)
Theorem read_patch_plain_streams (L : Library) (header rest : bytes)
    (len_control len_diff len_dst : Z) (tcontrol : list (Z * Z * Z)) :
  length header = 32 →
  patch_codecs (take 8 header) = ok (0, 0, 0)%Z →
  decode_int64 L (take 8 (drop 8 header)) = ok len_control →
  decode_int64 L (take 8 (drop 16 header)) = ok len_diff →
  decode_int64 L (take 8 (drop 24 header)) = ok len_dst →
  (0 ≤ len_control)%Z → (0 ≤ len_diff)%Z →
  control_tuples L (Some (take (Z.to_nat len_control) rest)) = ok tcontrol →
  bsdf2_read_patch L (header ++ rest)
  = ok (len_dst, tcontrol,
        Some (take (Z.to_nat len_diff) (drop (Z.to_nat len_control) rest)),
        Some (drop (Z.to_nat len_control + Z.to_nat len_diff) rest)).
Proof.
  intros Hlen Hmagic Hlc Hld Hldst Hc0 Hd0 Ht.
  rewrite (bsdf2_read_patch_header L header rest len_control len_diff len_dst)
    by done.
  unfold bytesio_read.
  destruct (Z.ltb_spec len_control 0); [lia|].
  destruct (Z.ltb_spec len_diff 0); [lia|]. cbn [fst snd].
  rewrite !bsdf2_decompress_0. cbn [rbind ok]. rewrite Ht. cbn [rbind ok].
  by rewrite drop_drop.
Qed.

Lemma read_patch_plain_streams_witness :
  bsdf2_read_patch Sample.library MoreInputs.plain_patch
  = ok (3%Z, [(2, 1, 0)%Z], Some [5; 6]%Z, Some [7]%Z).
Proof.
  apply (read_patch_plain_streams Sample.library
           (take 32 MoreInputs.plain_patch) (drop 32 MoreInputs.plain_patch)
           24 2 3 [(2, 1, 0)%Z]); try reflexivity; lia.
Defined.

(** X22: the length fields of a patch are not checked.  With a negative
    [len_control] the control stream is everything after the header and
    the diff and extra streams are empty; with a negative [len_diff] the
    diff stream is everything after the control stream and the extra
    stream is empty.  (Without compression, for a decodable control
    stream.) *)
Theorem read_patch_negative_lengths (L : Library) (header rest : bytes)
    (len_control len_diff len_dst : Z) (tcontrol : list (Z * Z * Z)) :
  length header = 32 →
  patch_codecs (take 8 header) = ok (0, 0, 0)%Z →
  decode_int64 L (take 8 (drop 8 header)) = ok len_control →
  decode_int64 L (take 8 (drop 16 header)) = ok len_diff →
  decode_int64 L (take 8 (drop 24 header)) = ok len_dst →
  ((len_control < 0)%Z →
   control_tuples L (Some rest) = ok tcontrol →
   bsdf2_read_patch L (header ++ rest) = ok (len_dst, tcontrol, Some [], Some []))
  ∧ ((0 ≤ len_control)%Z → (len_diff < 0)%Z →
     control_tuples L (Some (take (Z.to_nat len_control) rest)) = ok tcontrol →
     bsdf2_read_patch L (header ++ rest)
     = ok (len_dst, tcontrol, Some (drop (Z.to_nat len_control) rest), Some [])).
Proof.
  intros Hlen Hmagic Hlc Hld Hldst.
  rewrite (bsdf2_read_patch_header L header rest len_control len_diff len_dst)
    by done.
  split.
  - intros Hneg Ht. unfold bytesio_read at 1 3 5.
    destruct (Z.ltb_spec len_control 0); [|lia]. cbn [fst snd].
    rewrite !bsdf2_decompress_0. cbn [rbind ok]. rewrite Ht. cbn [rbind ok].
    unfold bytesio_read. destruct (len_diff <? 0)%Z; cbn [fst snd];
      by rewrite ?take_nil, ?drop_nil.
  - intros Hc0 Hneg Ht. unfold bytesio_read.
    destruct (Z.ltb_spec len_control 0); [lia|].
    destruct (Z.ltb_spec len_diff 0); [|lia]. cbn [fst snd].
    rewrite !bsdf2_decompress_0. cbn [rbind ok]. by rewrite Ht.
Qed.

Lemma read_patch_negative_lengths_witness :
  bsdf2_read_patch Sample.library
    (BSDF2_MAGIC ++ [0; 0; 0] ++ [1; 0; 0; 0; 0; 0; 0; 128]
     ++ replicate 16 0 ++ replicate 24 0)%Z
  = ok (0%Z, [(0, 0, 0)%Z], Some [], Some []).
Proof.
  apply (proj1 (read_patch_negative_lengths Sample.library
           (BSDF2_MAGIC ++ [0; 0; 0] ++ [1; 0; 0; 0; 0; 0; 0; 128]
            ++ replicate 16 0)%Z (replicate 24 0%Z) (-1) 0 0 [(0, 0, 0)%Z]
           eq_refl eq_refl eq_refl eq_refl eq_refl)).
  - lia.
  - reflexivity.
Defined.

(** ** More on contiguity *)

Lemma total_blocks_app l1 l2 :
  total_blocks (l1 ++ l2) = (total_blocks l1 + total_blocks l2)%N.
Proof. induction l1 as [|e l1 IH]; simpl; [done|]. rewrite IH. lia. Qed.

Lemma verify_contiguous_from_app blocks l1 l2 :
  verify_contiguous_from blocks (l1 ++ l2)
  = verify_contiguous_from blocks l1
    && verify_contiguous_from (blocks + total_blocks l1) l2.
Proof.
  revert blocks. induction l1 as [|e l1 IH]; intros blocks; simpl.
  - by rewrite N.add_0_r.
  - destruct (start_block e =? blocks)%N; simpl; [|done].
    rewrite IH. do 2 f_equal. lia.
Qed.

(** X23: the contiguity check composes: a sequence of extents followed by
    another is accepted exactly when the first is accepted and the second
    continues from the block where the first ends; so every prefix of an
    accepted sequence is accepted. *)
Theorem verify_contiguous_app (l1 l2 : list Extent) :
  verify_contiguous (l1 ++ l2)
  = verify_contiguous l1 && verify_contiguous_from (total_blocks l1) l2
  ∧ (verify_contiguous (l1 ++ l2) = true → verify_contiguous l1 = true).
Proof.
  assert (verify_contiguous (l1 ++ l2)
          = verify_contiguous l1 && verify_contiguous_from (total_blocks l1) l2) as H.
  { unfold verify_contiguous. by rewrite verify_contiguous_from_app, N.add_0_l. }
  split; [done|]. rewrite H. by intros [? _]%andb_prop.
Qed.

Lemma verify_contiguous_app_witness :
  verify_contiguous [mkExtent 0 2] = true.
Proof.
  apply (proj2 (verify_contiguous_app [mkExtent 0 2] [mkExtent 2 3])). reflexivity.
Defined.

(** X24: accepted extents are in ascending order and do not overlap: the
    first starts at block 0 and each ends at or before the start of every
    later one. *)
Theorem verify_contiguous_ordered (exts : list Extent) :
  verify_contiguous exts = true →
  (∀ ext, exts !! 0 = Some ext → start_block ext = 0%N)
  ∧ ∀ i j ei ej, i < j → exts !! i = Some ei → exts !! j = Some ej →
      (start_block ei + num_blocks ei ≤ start_block ej)%N.
Proof.
  unfold verify_contiguous. rewrite verify_contiguous_from_spec. intros H. split.
  - intros ext H0. by rewrite (H 0 ext H0).
  - intros i j ei ej Hij Hi Hj.
    rewrite (H i ei Hi), (H j ej Hj), !N.add_0_l.
    assert (take j exts = take (S i) exts ++ drop (S i) (take j exts)) as ->.
    { rewrite <- (take_drop (S i) (take j exts)) at 1.
      rewrite take_take. by replace (S i `min` j) with (S i) by lia. }
    rewrite total_blocks_app, (take_S_r _ _ _ Hi), total_blocks_app. simpl. lia.
Qed.

Lemma verify_contiguous_ordered_witness :
  (0 + 2 ≤ 2)%N.
Proof.
  apply (proj2 (verify_contiguous_ordered [mkExtent 0 2; mkExtent 2 3] eq_refl)
           0 1 (mkExtent 0 2) (mkExtent 2 3)); [lia|reflexivity|reflexivity].
Defined.

(** ** The patch operations *)

Lemma write_at_0 (old new : bytes) :
  write_at old 0 new = new ++ drop (length new) old.
Proof. destruct new as [|x new]; [by rewrite drop_0|]. by rewrite write_at_cons. Qed.

Lemma bind_ok_eq {S A B} (m : io S A) (k : A → io S B) s s' a :
  m s = (s', ok a) → bind m k s = k a s'.
Proof. intros H. by rewrite bind_eq, H. Qed.

Section Patch.
Context (L : Library) (G : Globals).

(** Lines 115-120: the source extents are read, in order, into one
    buffer; nothing is written. *)
Lemma old_data_loop (exts : list Extent) : ∀ (s : state) f (acc : bytes),
  old_file s = Some f →
  ∃ s1, fold_each (λ (tmp_buff : bytes) ext,
            do _ <- old_seek (start_block ext * block_size G);
            do old_data <- old_read (num_blocks ext * block_size G);
            ret (tmp_buff ++ old_data)) acc exts s
        = (s1, ok (acc ++ source_bytes G (contents (disk s) (f_name f)) exts))
    ∧ disk s1 = disk s ∧ out_file s1 = out_file s.
Proof.
  induction exts as [|ext exts IH]; intros s f acc Hold.
  - exists s. cbn [fold_each]. unfold source_bytes. cbn. by rewrite app_nil_r.
  - set (old := contents (disk s) (f_name f)).
    set (chunk := read_at old (N.to_nat (start_block ext * block_size G))
                              (N.to_nat (num_blocks ext * block_size G))).
    pose (s1 := mkState (disk s) (out_file s)
      (Some (mkFile (f_name f)
                    (start_block ext * block_size G + N.of_nat (length chunk))))).
    destruct (IH s1 (mkFile (f_name f)
                (start_block ext * block_size G + N.of_nat (length chunk)))
                (acc ++ chunk) eq_refl) as (s2 & Hrun & Hdisk & Hout).
    unfold s1 in Hrun, Hdisk, Hout. cbn [disk out_file old_file f_name] in *.
    exists s2. split; [|done].
    cbn [fold_each]. rewrite bind_eq.
    replace ((do _ <- old_seek (start_block ext * block_size G);
              do old_data <- old_read (num_blocks ext * block_size G);
              ret (acc ++ old_data)) s)
      with (mkState (disk s) (out_file s)
              (Some (mkFile (f_name f)
                 (start_block ext * block_size G + N.of_nat (length chunk)))),
            ok (acc ++ chunk) : result bytes).
    + rewrite source_bytes_cons. fold old chunk. rewrite app_assoc. exact Hrun.
    + destruct s as [d o ol]. cbn in Hold. subst ol. reflexivity.
Qed.

(** X25: in differential mode, a SOURCE_BSDIFF or BROTLI_BSDIFF operation
    with a single destination extent patches the concatenated source
    extents and writes, at the byte offset of the extent, at most the
    extent's size from a buffer that holds the patched data followed by
    whatever of the source data the patched data did not cover.  So
    patched data longer than the extent are cut off, and patched data
    shorter than both the extent and the source data are followed in the
    output by stale source bytes. *)
Theorem bsdiff_writes_patched_buffer (op : InstallOperation) (s : state)
    (f : file) (ext : Extent) (len_dst : Z) (tcontrol : list (Z * Z * Z))
    (bdiff bextra : option bytes) (new_data : bytes) :
  args_diff G = true →
  hash_gate L op (payload_data G op) = ok tt →
  op_type op = SOURCE_BSDIFF ∨ op_type op = BROTLI_BSDIFF →
  dst_extents op = [ext] →
  old_file s = Some f →
  let name := f_name (out_file s) in
  let pos := N.to_nat (start_block ext * block_size G) in
  let old_data := source_bytes G (contents (disk s) (f_name f)) (src_extents op) in
  bsdf2_read_patch L (payload_data G op) = ok (len_dst, tcontrol, bdiff, bextra) →
  bsdiff4_patch L old_data len_dst tcontrol bdiff bextra = ok new_data →
  let data := take (N.to_nat (num_blocks ext * block_size G))
                   (new_data ++ drop (length new_data) old_data) in
  ∃ s', data_for_op L G op s = (s', ok data)
    ∧ contents (disk s') name = write_at (contents (disk s) name) pos data
    ∧ ∀ other, other ≠ name → disk s' !! other = disk s !! other.
Proof.
  intros Hdiff Hgate Hty Hdst Hold name pos old_data Hread Hpatch data.
  pose (s0 := mkState (disk s) (mkFile name (start_block ext * block_size G))
                      (old_file s)).
  destruct (old_data_loop (src_extents op) s0 f [] Hold)
    as (s1 & Hloop & Hdisk & Hout).
  cbn [disk out_file old_file app s0] in Hloop, Hdisk, Hout.
  fold old_data in Hloop.
  exists (mkState (<[name := write_at (contents (disk s) name) pos data]> (disk s))
                  (mkFile name (start_block ext * block_size G
                                + N.of_nat (length data)))
                  (old_file s1)).
  split; [|split].
  - assert (data_for_op L G op s =
      (if negb (args_diff G) then throw (SystemExit (-3))
       else
         do ext <- lift (first_dst op);
         do _ <- out_seek (start_block ext * block_size G);
         do old_data <- fold_each (λ tmp_buff ext,
             do _ <- old_seek (start_block ext * block_size G);
             do old_data <- old_read (num_blocks ext * block_size G);
             ret (tmp_buff ++ old_data))
           [] (src_extents op);
         do '(len_dst, tcontrol, bdiff, bextra)
           <- lift (bsdf2_read_patch L (payload_data G op));
         do new_data <- lift (bsdiff4_patch L old_data len_dst tcontrol bdiff bextra);
         let tmp_buff := write_at old_data 0 new_data in
         do '(_, data) <- fold_each (λ '(n, _) ext,
             let data := read_at tmp_buff (N.to_nat (n * block_size G))
                                 (N.to_nat (num_blocks ext * block_size G)) in
             do _ <- out_seek (start_block ext * block_size G);
             do _ <- out_write data;
             ret ((n + num_blocks ext)%N, data))
           (0%N, payload_data G op) (dst_extents op);
         ret data) s) as ->.
    { unfold data_for_op. rewrite bind_eq. unfold lift at 1. rewrite Hgate.
      by destruct Hty as [-> | ->]. }
    rewrite Hdiff. cbn [negb].
    rewrite (bind_ok_eq (lift (first_dst op)) _ s s ext)
      by (unfold lift, first_dst; by rewrite Hdst).
    rewrite (bind_ok_eq (out_seek _) _ s s0 tt) by reflexivity.
    rewrite (bind_ok_eq _ _ s0 s1 old_data Hloop).
    rewrite (bind_ok_eq (lift _) _ s1 s1 (len_dst, tcontrol, bdiff, bextra))
      by (unfold lift; by rewrite Hread).
    cbn beta iota.
    rewrite (bind_ok_eq (lift _) _ s1 s1 new_data)
      by (unfold lift; by rewrite Hpatch).
    cbn beta zeta. rewrite write_at_0, Hdst. cbn [fold_each].
    unfold bind, out_seek, out_write, ret. cbn beta iota.
    destruct s1 as [d1 o1 ol1]. cbn [disk out_file old_file f_name f_pos] in *.
    subst d1 o1. cbn [f_name f_pos].
    reflexivity.
  - cbn [disk]. by rewrite contents_insert.
  - intros other Hne. cbn [disk]. by rewrite lookup_insert_ne.
Qed.

End Patch.

Lemma bsdiff_writes_patched_buffer_witness :
  let G := mkGlobals MoreInputs.plain_patch 0 2 true "output" "old" "" in
  let s := mkState {[ "old/boot.img" := [10; 20; 30; 40]%Z ]}
                   (mkFile "output/boot.img" 0)
                   (Some (mkFile "old/boot.img" 0)) in
  let op := mkOp SOURCE_BSDIFF 0 59 [] [mkExtent 0 2] [mkExtent 0 2] in
  ∃ s', data_for_op Sample.library G op s = (s', ok [15; 26; 7; 40]%Z)
    ∧ contents (disk s') "output/boot.img" = [15; 26; 7; 40]%Z.
Proof.
  intros G s op.
  destruct (bsdiff_writes_patched_buffer Sample.library G op s
              (mkFile "old/boot.img" 0) (mkExtent 0 2) 3
              [(2, 1, 0)%Z] (Some [5; 6]%Z) (Some [7]%Z) [15; 26; 7]%Z
              eq_refl eq_refl (or_introl eq_refl) eq_refl eq_refl eq_refl eq_refl)
    as (s' & Hrun & Hc & _).
  exists s'. split; [exact Hrun|exact Hc].
Defined.

(** ** Operation data and the whole run *)

(** The data of an operation are the bytes of the payload from
    [data_offset + op.data_offset] on, [op.data_length] of them, or what is
    left of the payload. *)
Lemma payload_data_bytes (G : Globals) (op : InstallOperation) :
  (∀ k, k < N.to_nat (op_data_length op) →
        payload_data G op !! k
        = payloadfile G !! (N.to_nat (data_offset G + op_data_offset op) + k))
  ∧ length (payload_data G op)
    = N.to_nat (op_data_length op)
      `min` (length (payloadfile G) - N.to_nat (data_offset G + op_data_offset op)).
Proof.
  split.
  - intros k Hk. unfold payload_data. by apply lookup_read_at.
  - unfold payload_data, read_at. by rewrite length_take, length_drop.
Qed.

(** X26: a truncated payload is not noticed by a REPLACE operation without
    a hash.  For an operation that asks for no more data than the payload
    is long, at an offset below 2^63, and whose first destination extent
    starts below byte 2^63 (the offsets and the size that the seeks and the
    read of lines 76-77 and 98 take): when the data of the operation lie
    beyond the end of the payload, the operation succeeds, returns no data
    and changes the contents of no file; when the payload ends inside the
    data, what is left is written and the operation succeeds as well. *)
Theorem replace_of_truncated_payload (L : Library) (G : Globals)
    (op : InstallOperation) (s : state) (ext : Extent) (exts : list Extent) :
  op_type op = REPLACE →
  data_sha256_hash op = [] →
  dst_extents op = ext :: exts →
  N.to_nat (op_data_length op) ≤ length (payloadfile G) →
  (data_offset G + op_data_offset op < 2 ^ 63)%N →
  (start_block ext * block_size G < 2 ^ 63)%N →
  (∃ s', data_for_op L G op s = (s', ok (payload_data G op))
     ∧ length (payload_data G op)
       = N.to_nat (op_data_length op)
         `min` (length (payloadfile G)
                - N.to_nat (data_offset G + op_data_offset op)))
  ∧ (length (payloadfile G) ≤ N.to_nat (data_offset G + op_data_offset op) →
     ∃ s', data_for_op L G op s = (s', ok [])
       ∧ ∀ name, contents (disk s') name = contents (disk s) name).
Proof.
  intros Hty Hhash Hdst _ _ _.
  assert (hash_gate L op (payload_data G op) = ok tt) as Hgate
    by (unfold hash_gate; by rewrite decide_True).
  assert (replace_data L (op_type op) (payload_data G op)
          = Some (ok (payload_data G op))) as Hr by (by rewrite Hty).
  pose proof (data_for_op_replace L G op _ s Hr Hgate) as Hrun.
  unfold ok in Hrun. cbn iota in Hrun.
  rewrite (write_first_eq G op ext exts _ s Hdst) in Hrun.
  split.
  - eexists. split; [exact Hrun|]. apply payload_data_bytes.
  - intros Hend.
    assert (payload_data G op = []) as Hnil.
    { apply length_zero_iff_nil. rewrite (proj2 (payload_data_bytes G op)). lia. }
    rewrite Hnil in Hrun. eexists. split; [exact Hrun|].
    intros name. cbn [disk]. rewrite write_at_nil.
    destruct (decide (f_name (out_file s) = name)) as [<-|Hne].
    + by rewrite contents_insert.
    + by rewrite contents_insert_ne.
Qed.

Lemma replace_of_truncated_payload_witness :
  let G := Sample.globals false "output" "old" [1; 2]%Z in
  let s := mkState {[ "output/boot.img" := [9]%Z ]}
                   (mkFile "output/boot.img" 0) None in
  ∃ s', data_for_op Sample.library G (mkOp REPLACE 2 2 [] [] [mkExtent 0 1]) s
        = (s', ok [])
    ∧ ∀ name, contents (disk s') name = contents (disk s) name.
Proof.
  intros G s.
  apply (proj2 (replace_of_truncated_payload Sample.library G
                  (mkOp REPLACE 2 2 [] [] [mkExtent 0 1]) s (mkExtent 0 1) []
                  eq_refl eq_refl eq_refl
                  ltac:(cbn; lia) ltac:(cbn; lia) ltac:(cbn; lia))).
  cbn. lia.
Defined.

(** X27: for a payload with a well-formed header whose manifest decodes,
    and whose two size fields are not larger than the length of the payload
    ([24 + length rest]), the run is the dump of the manifest's partitions
    with the manifest's block size, and with the operation data starting
    right after the manifest and the metadata signature. *)
Theorem main_runs_partitions (L : Library)
    (ParseFromString : bytes → result (N * list PartitionUpdate))
    (manifest_size metadata_signature_size : Z) (rest : bytes)
    (block_size : N) (partitions : list PartitionUpdate)
    (diff : bool) (out old images : string) (d : gmap string bytes) :
  (0 ≤ manifest_size < 2 ^ 64)%Z →
  (0 ≤ metadata_signature_size < 2 ^ 32)%Z →
  (manifest_size ≤ Z.of_nat (24 + length rest))%Z →
  (metadata_signature_size ≤ Z.of_nat (24 + length rest))%Z →
  ParseFromString (take (Z.to_nat manifest_size) rest) = ok (block_size, partitions) →
  let payloadfile :=
    bytes_of_string "CrAU" ++ be_bytes 8 2 ++ be_bytes 8 manifest_size
    ++ be_bytes 4 metadata_signature_size ++ rest in
  let data_offset :=
    N.of_nat (24 + length rest
              `min` (Z.to_nat manifest_size + Z.to_nat metadata_signature_size)) in
  main L ParseFromString payloadfile diff out old images d
  = dump_images L (mkGlobals payloadfile data_offset block_size diff out old images)
                partitions d.
Proof.
  intros Hm Hs _ _ Hparse payloadfile data_offset. unfold main.
  unfold payloadfile at 1. rewrite read_header_well_formed by done.
  cbn [rbind ok]. rewrite Hparse. reflexivity.
Qed.

Lemma main_runs_partitions_witness :
  main Sample.library MoreInputs.no_manifest
       (bytes_of_string "CrAU" ++ be_bytes 8 2 ++ be_bytes 8 2 ++ be_bytes 4 1
        ++ [7; 8; 9; 1; 2; 3]%Z) false "output" "old" "" ∅
  = (∅, ok tt).
Proof.
  refine (eq_trans (main_runs_partitions Sample.library MoreInputs.no_manifest
                      2 1 [7; 8; 9; 1; 2; 3]%Z 4 [] false "output" "old" "" ∅
                      _ _ _ _ eq_refl) _).
  - lia.
  - lia.
  - simpl. lia.
  - simpl. lia.
  - reflexivity.
Defined.
